(** * A loading cache with per-key locks and lazy expiration

    Shallow embedding of [cache.go]: the generic [loadingCache] with its
    value store [dataMap], its lock registry [lockMap] guarded by
    [lockMapLock], the loader [loadingFunc] and the fixed [cacheDuration].

    The file has two layers over the same atomic actions:
    - [Get] and [Put] as the source writes them, one call run from its first
      statement to its return (a state and error monad);
    - a machine of goroutines, each one inside a call of [Get] or [Put],
      interleaved statement by statement under a scheduler. *)

From Stdlib Require Import ZArith Lia.
From stdpp Require Import gmap list.

Local Open Scope Z_scope.

(** ** Time

    An instant of [time.Time] is a point of the clock in nanoseconds, a
    [time.Duration] a signed number of nanoseconds; both are unbounded
    integers, and the overflow of the arithmetic of [time.Time] is outside
    the model.  [time.Now] is not a function of the program state: every
    reading is an input of the model.  Every instant of this program comes
    from [time.Now()] or [time.Now().Add(d)] and carries a reading of the
    monotonic clock, which is what [Before] then compares: the readings of
    one run never decrease, and two of them may be equal. *)

Definition time_Add (t d : Z) : Z := t + d.

(** [t.Before(u)]: the instant [t] is strictly earlier than [u]. *)
Definition time_Before (t u : Z) : bool := t <? u.

Section LoadingCache.

(** [K comparable] is what a Go map key needs; [V any].  [E] is what a
    panicking loader carries, [W] the part of the world the loader reads and
    writes (a loader is an arbitrary Go function, not a pure one). *)
Context {K : Type} `{Countable K}.
Context {V E W : Type}.

(** ** Data *)

Record CacheValue : Type := mkCacheValue {
  Value : V;
  Expiration : Z
}.

(** [func (this *CacheValue[V]) Expired() bool]; [now] is what [time.Now()]
    returns inside the call. *)
Definition Expired (this : CacheValue) (now : Z) : bool :=
  time_Before (Expiration this) now.

(** What a call of the loader does: it returns a value or panics. *)
Inductive loaded : Type :=
| Loaded (v : V)
| Panics (e : E).

(** The struct [loadingCache] together with the heap objects its fields
    point to.  A [*sync.Mutex] of the registry is an address in [mutexes];
    the cell holds [true] while the mutex is locked.  [lockMapLock] is never
    reassigned nor compared, so the field holds the state of that mutex.
    [loaderCalls] is the trace of the keys the loader was called with, oldest
    first: it is instrumentation, and no statement of the source reads it. *)
Record loadingCache : Type := mkLoadingCache {
  dataMap : gmap K CacheValue;
  lockMap : gmap K nat;
  lockMapLock : bool;
  loadingFunc : K -> W -> loaded * W;
  cacheDuration : Z;
  mutexes : list bool;
  loaderWorld : W;
  loaderCalls : list K
}.

Definition set_dataMap (f : gmap K CacheValue -> gmap K CacheValue)
    (c : loadingCache) : loadingCache :=
  mkLoadingCache (f (dataMap c)) (lockMap c) (lockMapLock c) (loadingFunc c)
    (cacheDuration c) (mutexes c) (loaderWorld c) (loaderCalls c).

Definition set_lockMap (f : gmap K nat -> gmap K nat)
    (c : loadingCache) : loadingCache :=
  mkLoadingCache (dataMap c) (f (lockMap c)) (lockMapLock c) (loadingFunc c)
    (cacheDuration c) (mutexes c) (loaderWorld c) (loaderCalls c).

Definition set_lockMapLock (b : bool) (c : loadingCache) : loadingCache :=
  mkLoadingCache (dataMap c) (lockMap c) b (loadingFunc c)
    (cacheDuration c) (mutexes c) (loaderWorld c) (loaderCalls c).

Definition set_mutexes (f : list bool -> list bool)
    (c : loadingCache) : loadingCache :=
  mkLoadingCache (dataMap c) (lockMap c) (lockMapLock c) (loadingFunc c)
    (cacheDuration c) (f (mutexes c)) (loaderWorld c) (loaderCalls c).

Definition set_loader (w : W) (key : K) (c : loadingCache) : loadingCache :=
  mkLoadingCache (dataMap c) (lockMap c) (lockMapLock c) (loadingFunc c)
    (cacheDuration c) (mutexes c) w (loaderCalls c ++ [key]).

(** [NewLoadingCache]: two empty maps and a fresh, unlocked registry guard.
    [w] is the loader's world at that moment. *)
Definition NewLoadingCache (loadingFunc : K -> W -> loaded * W)
    (cacheDuration : Z) (w : W) : loadingCache :=
  mkLoadingCache ∅ ∅ false loadingFunc cacheDuration [] w [].

(** ** Atomic actions

    Each one is a single statement of the source on the shared state.  An
    action that cannot proceed (a [Lock] on a held mutex) has no result. *)

(** [m.Lock()] on a mutex of the registry. *)
Definition Mutex_Lock (m : nat) (c : loadingCache) : option loadingCache :=
  match mutexes c !! m with
  | Some false => Some (set_mutexes (<[m := true]>) c)
  | _ => None
  end.

(** [m.Unlock()].  Every [Unlock] of the source is deferred right after the
    [Lock] of the same mutex, so it only runs on a mutex its caller holds. *)
Definition Mutex_Unlock (m : nat) (c : loadingCache) : loadingCache :=
  set_mutexes (<[m := false]>) c.

(** [this.lockMapLock.Lock()] and [this.lockMapLock.Unlock()]. *)
Definition guard_Lock (c : loadingCache) : option loadingCache :=
  if lockMapLock c then None else Some (set_lockMapLock true c).

Definition guard_Unlock (c : loadingCache) : loadingCache :=
  set_lockMapLock false c.

(** [&sync.Mutex{}]: a new unlocked mutex at an address no pointer holds. *)
Definition new_Mutex (c : loadingCache) : nat * loadingCache :=
  (length (mutexes c), set_mutexes (fun h => h ++ [false]) c).

(** [this.lockMap[key] = newLock]. *)
Definition lockMap_store (key : K) (newLock : nat)
    (c : loadingCache) : loadingCache :=
  set_lockMap (<[key := newLock]>) c.

(** [l.loadingFunc(key)]. *)
Definition call_loader (key : K) (c : loadingCache) : loaded * loadingCache :=
  let '(r, w) := loadingFunc c key (loaderWorld c) in
  (r, set_loader w key c).

(** [l.dataMap[key] = &CacheValue[V]{Value: value, Expiration:
    time.Now().Add(l.cacheDuration)}], with [now] the reading of the clock. *)
Definition dataMap_store (key : K) (value : V) (now : Z)
    (c : loadingCache) : loadingCache :=
  set_dataMap
    (<[key := mkCacheValue value (time_Add now (cacheDuration c))]>) c.

(** When [Get] loads: the test [!exists || (exists && value.Expired())] on
    the result of [l.dataMap[key]]. *)
Definition must_load (entry : option CacheValue) (now : Z) : bool :=
  match entry with
  | None => true
  | Some value => Expired value now
  end.

(** ** One call, start to end *)

(** How a call ends: it returns, it panics, or it waits for ever on a mutex
    nobody will release. *)
Inductive result (A : Type) : Type :=
| Return (a : A)
| Panic (e : E)
| Blocked.
Arguments Return {A} a.
Arguments Panic {A} e.
Arguments Blocked {A}.

Definition M (A : Type) : Type := loadingCache -> result A * loadingCache.

Definition ret {A} (a : A) : M A := fun c => (Return a, c).

Definition bind {A B} (m : M A) (k : A -> M B) : M B := fun c =>
  match m c with
  | (Return a, c') => k a c'
  | (Panic e, c') => (Panic e, c')
  | (Blocked, c') => (Blocked, c')
  end.

(** An action that may have to wait. *)
Definition try (f : loadingCache -> option loadingCache) : M unit := fun c =>
  match f c with
  | Some c' => (Return tt, c')
  | None => (Blocked, c)
  end.

Definition modify (f : loadingCache -> loadingCache) : M unit :=
  fun c => (Return tt, f c).

Definition gets {A} (f : loadingCache -> A) : M A := fun c => (Return (f c), c).

(** [defer d; body]: [d] runs when [body] returns and when it panics, and
    the return value or the panic goes on to the caller. *)
Definition defer {A} (d : loadingCache -> loadingCache) (body : M A) : M A :=
  fun c =>
    match body c with
    | (Return a, c') => (Return a, d c')
    | (Panic e, c') => (Panic e, d c')
    | (Blocked, c') => (Blocked, c')
    end.

(** An action that always proceeds and yields a value. *)
Definition act {A} (f : loadingCache -> A * loadingCache) : M A :=
  fun c => let '(a, c') := f c in (Return a, c').

Definition panic {A} (e : E) : M A := fun c => (Panic e, c).

Notation "'do' x <- m ; k" := (bind m (fun x => k))
  (at level 10, x name, m at level 100, k at level 200).
Notation "'run' m ; k" := (bind m (fun _ => k))
  (at level 10, m at level 100, k at level 200).

Definition getKeyLockFromMap (key : K) : M nat :=
  run try guard_Lock ;
  defer guard_Unlock
    (do found <- gets (fun c => lockMap c !! key) ;
     match found with
     | Some lock => ret lock
     | None =>
         do newLock <- act new_Mutex ;
         run modify (lockMap_store key newLock) ;
         ret newLock
     end).

(** The branch of [Get] that loads: call the loader, store, return. *)
Definition load_and_store (key : K) (now : Z) : M V :=
  do r <- act (call_loader key) ;
  match r with
  | Loaded newValue =>
      run modify (dataMap_store key newValue now) ;
      ret newValue
  | Panics e => panic e
  end.

(** [Get]: [now1] is the clock read by [value.Expired()] (only read when the
    key has an entry), [now2] the clock read when the new entry is built
    (only read after the loader returned). *)
Definition Get (key : K) (now1 now2 : Z) : M V :=
  do keyLock <- getKeyLockFromMap key ;
  run try (Mutex_Lock keyLock) ;
  defer (Mutex_Unlock keyLock)
    (do entry <- gets (fun c => dataMap c !! key) ;
     match entry with
     | None => load_and_store key now2
     | Some value =>
         if Expired value now1 then load_and_store key now2
         else ret (Value value)
     end).

(** [Put]: [now] is the clock read when the entry is built. *)
Definition Put (key : K) (value : V) (now : Z) : M unit :=
  do keyLock <- getKeyLockFromMap key ;
  run try (Mutex_Lock keyLock) ;
  defer (Mutex_Unlock keyLock)
    (modify (dataMap_store key value now)).

(** ** Goroutines

    A goroutine is inside one call of [Get] or [Put].  Its program counter
    names the statement it runs next and holds its local variables. *)

Inductive call : Type :=
| CallGet (key : K)
| CallPut (key : K) (value : V).

Definition call_key (op : call) : K :=
  match op with
  | CallGet key => key
  | CallPut key _ => key
  end.

(** How a call ended, as its caller sees it. *)
Inductive reply : Type :=
| GetReturned (v : V)
| PutReturned
| Panicked (e : E).

Inductive pc : Type :=
| AtEntry                          (* next: this.lockMapLock.Lock() *)
| AtLookup                         (* next: lock, exists := this.lockMap[key] *)
| AtNewLock                        (* next: newLock := &sync.Mutex{} *)
| AtInsert (newLock : nat)         (* next: this.lockMap[key] = newLock *)
| AtGuardExit (lock : nat)         (* next: deferred this.lockMapLock.Unlock() *)
| AtAcquire (keyLock : nat)        (* next: keyLock.Lock() *)
| AtRead (keyLock : nat)           (* next: l.dataMap[key] and the test *)
| AtLoad (keyLock : nat)           (* next: l.loadingFunc(key) *)
| AtStore (keyLock : nat) (value : V)   (* next: l.dataMap[key] = ... *)
| AtKeyExit (keyLock : nat) (r : reply) (* next: deferred keyLock.Unlock() *)
| Finished (r : reply).

(** One statement of a goroutine; [now] is the clock at that moment.  The
    map read of [Get] and the test on the local [value] are one step, and so
    are the clock read and the map write of a store: nothing between the two
    halves touches the shared state.  The lookup, the allocation and the
    insertion of [getKeyLockFromMap] are three steps, and so are the test,
    the call of the loader and the store of [Get].

    Every access to a map is one atomic step.  That is what the locks give
    to [lockMap] (always under [lockMapLock]) and to the entry of one key in
    [dataMap] (always under the lock of that key); goroutines working on
    different keys reach the one Go map [dataMap] under different locks, and
    what the Go runtime does with such unsynchronised accesses is outside
    the machine.  What is stated of calls on several keys is therefore about
    the locks and about what a statement reads and writes when it runs; that
    calls run to their end is stated of the calls of one key, whose accesses
    to [dataMap] the lock of that key keeps apart. *)
Definition thread_step (now : Z) (op : call) (p : pc) (c : loadingCache)
    : option (pc * loadingCache) :=
  let key := call_key op in
  match p with
  | AtEntry =>
      match guard_Lock c with
      | Some c' => Some (AtLookup, c')
      | None => None
      end
  | AtLookup =>
      match lockMap c !! key with
      | Some lock => Some (AtGuardExit lock, c)
      | None => Some (AtNewLock, c)
      end
  | AtNewLock =>
      let '(newLock, c') := new_Mutex c in Some (AtInsert newLock, c')
  | AtInsert newLock => Some (AtGuardExit newLock, lockMap_store key newLock c)
  | AtGuardExit lock => Some (AtAcquire lock, guard_Unlock c)
  | AtAcquire keyLock =>
      match Mutex_Lock keyLock c with
      | Some c' =>
          Some (match op with
                | CallGet _ => AtRead keyLock
                | CallPut _ value => AtStore keyLock value
                end, c')
      | None => None
      end
  | AtRead keyLock =>
      match dataMap c !! key with
      | None => Some (AtLoad keyLock, c)
      | Some value =>
          if Expired value now then Some (AtLoad keyLock, c)
          else Some (AtKeyExit keyLock (GetReturned (Value value)), c)
      end
  | AtLoad keyLock =>
      let '(r, c') := call_loader key c in
      match r with
      | Loaded newValue => Some (AtStore keyLock newValue, c')
      | Panics e => Some (AtKeyExit keyLock (Panicked e), c')
      end
  | AtStore keyLock value =>
      Some (AtKeyExit keyLock
              (match op with
               | CallGet _ => GetReturned value
               | CallPut _ _ => PutReturned
               end),
            dataMap_store key value now c)
  | AtKeyExit keyLock r => Some (Finished r, Mutex_Unlock keyLock c)
  | Finished _ => None
  end.

(** The machine: the shared cache, the clock, and the goroutines. *)
Record machine : Type := mkMachine {
  cache : loadingCache;
  clock : Z;
  threads : list (call * pc)
}.

(** What the scheduler may do: let goroutine [i] run one statement, or let
    [dt] nanoseconds pass. *)
Inductive action : Type :=
| Step (i : nat)
| Tick (dt : N).

Definition machine_step (a : action) (s : machine) : option machine :=
  match a with
  | Tick dt => Some (mkMachine (cache s) (clock s + Z.of_N dt) (threads s))
  | Step i =>
      match threads s !! i with
      | Some (op, p) =>
          match thread_step (clock s) op p (cache s) with
          | Some (p', c') =>
              Some (mkMachine c' (clock s) (<[i := (op, p')]> (threads s)))
          | None => None
          end
      | None => None
      end
  end.

Fixpoint exec (sched : list action) (s : machine) : option machine :=
  match sched with
  | [] => Some s
  | a :: rest =>
      match machine_step a s with
      | Some s' => exec rest s'
      | None => None
      end
  end.

(** [n] goroutines that all enter [Get(key)] on the cache [c] at time [t]. *)
Definition concurrent_Gets (n : nat) (key : K) (c : loadingCache) (t : Z)
    : machine :=
  mkMachine c t (replicate n (CallGet key, AtEntry)).

(** ** Where a goroutine is *)

(** Between [this.lockMapLock.Lock()] and the deferred [Unlock]. *)
Definition in_guard (p : pc) : bool :=
  match p with
  | AtLookup | AtNewLock | AtInsert _ | AtGuardExit _ => true
  | _ => false
  end.

(** In the branch of [getKeyLockFromMap] that found no lock for the key and
    has not stored the new one yet. *)
Definition creating (p : pc) : bool :=
  match p with
  | AtNewLock | AtInsert _ => true
  | _ => false
  end.

(** The lock [getKeyLockFromMap] is about to return or has returned. *)
Definition obtained (p : pc) : option nat :=
  match p with
  | AtGuardExit m | AtAcquire m | AtRead m | AtLoad m
  | AtStore m _ | AtKeyExit m _ => Some m
  | _ => None
  end.

(** Between [keyLock.Lock()] and the deferred [keyLock.Unlock()]. *)
Definition in_critical (p : pc) : bool :=
  match p with
  | AtRead _ | AtLoad _ | AtStore _ _ | AtKeyExit _ _ => true
  | _ => false
  end.

Definition at_entry (t : call * pc) : bool :=
  match snd t with
  | AtEntry => true
  | _ => false
  end.

(** A machine in which no call has started yet: the registry guard is free
    and every goroutine is about to run the first statement of its call. *)
Definition starting (s : machine) : bool :=
  negb (lockMapLock (cache s)) && forallb at_entry (threads s).

(** Every goroutine has returned or panicked. *)
Definition finished (t : call * pc) : bool :=
  match snd t with
  | Finished _ => true
  | _ => false
  end.

Definition all_finished (s : machine) : bool := forallb finished (threads s).

(** What holds of the registry in every machine a schedule can reach:
    one goroutine at most is inside the guard, and the guard is then locked;
    a goroutine creates a lock only for a key that has none; and a lock a
    goroutine obtained for its key is the one the registry has for it. *)
Record registry_inv (s : machine) : Prop := mkRegistryInv {
  guard_exclusive : forall i j opi p_i opj p_j,
    threads s !! i = Some (opi, p_i) -> threads s !! j = Some (opj, p_j) ->
    in_guard p_i = true -> in_guard p_j = true -> i = j;
  guard_locked : forall i op p,
    threads s !! i = Some (op, p) -> in_guard p = true ->
    lockMapLock (cache s) = true;
  creating_unregistered : forall i op p,
    threads s !! i = Some (op, p) -> creating p = true ->
    lockMap (cache s) !! call_key op = None;
  obtained_registered : forall i op p m,
    threads s !! i = Some (op, p) -> obtained p = Some m ->
    lockMap (cache s) !! call_key op = Some m
}.

(** About to store the mutex it has just created. *)
Definition at_insert (p : pc) : bool :=
  match p with
  | AtInsert _ => true
  | _ => false
  end.

(** The mutexes ever created are the locks of the keys of the registry, and
    one more while a goroutine is about to store the one it created. *)
Record alloc_inv (s : machine) : Prop := mkAllocInv {
  alloc_pending : forall i op p,
    threads s !! i = Some (op, p) -> at_insert p = true ->
    length (mutexes (cache s)) = S (size (lockMap (cache s)));
  alloc_settled :
    (forall i op p, threads s !! i = Some (op, p) -> at_insert p = false) ->
    length (mutexes (cache s)) = size (lockMap (cache s))
}.

(** Every goroutine of the machine is inside a [Get] of [key]. *)
Definition same_key (key : K) (s : machine) : Prop :=
  forall i op p, threads s !! i = Some (op, p) -> op = CallGet key.

(** Mutual exclusion on the lock of a key: one goroutine at most is between
    [keyLock.Lock()] and the deferred [Unlock], and its lock is held. *)
Record mutex_inv (s : machine) : Prop := mkMutexInv {
  critical_exclusive : forall i j opi p_i opj p_j,
    threads s !! i = Some (opi, p_i) -> threads s !! j = Some (opj, p_j) ->
    in_critical p_i = true -> in_critical p_j = true -> i = j;
  critical_locked : forall i op p m,
    threads s !! i = Some (op, p) -> in_critical p = true ->
    obtained p = Some m -> mutexes (cache s) !! m = Some true
}.

(** A goroutine that has not reached the store of [Get]. *)
Definition before_store (p : pc) : bool :=
  match p with
  | AtStore _ _ | AtKeyExit _ _ | Finished _ => false
  | _ => true
  end.

(** A goroutine that is not about to call the loader, and that, when it
    holds a value to store or to return, holds [v]. *)
Definition carries (v : V) (p : pc) : Prop :=
  match p with
  | AtLoad _ => False
  | AtStore _ x => x = v
  | AtKeyExit _ r | Finished r => r = GetReturned v
  | _ => True
  end.

(** A goroutine that does not load: it is not at the call of the loader nor
    at a store, and when it holds a reply, the reply is [v]. *)
Definition serves (v : V) (p : pc) : Prop :=
  match p with
  | AtLoad _ | AtStore _ _ => False
  | AtKeyExit _ r | Finished r => r = GetReturned v
  | _ => True
  end.

(** ** The tests of a batch against the clock

    A store gives its entry the expiration [clock + ttl]: the deadline of
    the tests that follow it.  [deadline_after] is the deadline once the
    action [a] has run in [s], [tested_in_time] tells whether [a], when it is
    the test of a [Get], reads a clock that has not passed the deadline of
    the last store; before the first store there is no deadline and nothing
    to check. *)
Definition deadline_after (deadline : option Z) (a : action) (s : machine)
    : option Z :=
  match a with
  | Step i =>
      match threads s !! i with
      | Some (_, AtStore _ _) =>
          Some (time_Add (clock s) (cacheDuration (cache s)))
      | _ => deadline
      end
  | Tick _ => deadline
  end.

Definition tested_in_time (deadline : option Z) (a : action) (s : machine)
    : bool :=
  match a, deadline with
  | Step i, Some d =>
      match threads s !! i with
      | Some (_, AtRead _) => clock s <=? d
      | _ => true
      end
  | _, _ => true
  end.

(** Every test of the schedule [sched], run from [s], is made in time. *)
Fixpoint tests_in_time (deadline : option Z) (sched : list action)
    (s : machine) : bool :=
  match sched with
  | [] => true
  | a :: rest =>
      tested_in_time deadline a s &&
      match machine_step a s with
      | Some s' => tests_in_time (deadline_after deadline a s) rest s'
      | None => true
      end
  end.

(** The deadline at the end of the schedule. *)
Fixpoint deadline_of (deadline : option Z) (sched : list action)
    (s : machine) : option Z :=
  match sched with
  | [] => deadline
  | a :: rest =>
      match machine_step a s with
      | Some s' => deadline_of (deadline_after deadline a s) rest s'
      | None => deadline
      end
  end.

(** The three phases of a batch of [Get]s of [key] that started on the cache
    [c0], where the loader, called in the world of [c0], returns [v] and
    leaves the world [w].  [cold]: the loader has not returned yet and
    nothing was stored.  [holding]: the loader was called once and the
    goroutine that called it is about to store [v].  [warm]: [v] is stored
    with the expiration [d], and no goroutine loads or stores. *)
Definition cold (c0 : loadingCache) (s : machine) : Prop :=
  loaderCalls (cache s) = loaderCalls c0 /\
  loaderWorld (cache s) = loaderWorld c0 /\
  dataMap (cache s) = dataMap c0 /\
  forall i op p, threads s !! i = Some (op, p) -> before_store p = true.

Definition holding (key : K) (c0 : loadingCache) (v : V) (w : W)
    (s : machine) : Prop :=
  loaderCalls (cache s) = loaderCalls c0 ++ [key] /\
  loaderWorld (cache s) = w /\
  (forall i op p, threads s !! i = Some (op, p) -> carries v p) /\
  exists i op m, threads s !! i = Some (op, AtStore m v).

Definition warm (key : K) (c0 : loadingCache) (v : V) (w : W) (d : Z)
    (s : machine) : Prop :=
  loaderCalls (cache s) = loaderCalls c0 ++ [key] /\
  loaderWorld (cache s) = w /\
  (forall i op p, threads s !! i = Some (op, p) -> serves v p) /\
  exists e, dataMap (cache s) !! key = Some e /\ Value e = v /\
            Expiration e = d.

(** The phase goes with the deadline: no store yet and no deadline, or the
    one store and its deadline. *)
Definition flight_phase (key : K) (c0 : loadingCache) (v : V) (w : W)
    (deadline : option Z) (s : machine) : Prop :=
  match deadline with
  | None => cold c0 s \/ holding key c0 v w s
  | Some d => warm key c0 v w d s
  end.

Record flight_inv (key : K) (c0 : loadingCache) (t0 : Z) (v : V) (w : W)
    (deadline : option Z) (s : machine) : Prop := mkFlightInv {
  flight_loader : loadingFunc (cache s) = loadingFunc c0;
  flight_ttl : cacheDuration (cache s) = cacheDuration c0;
  flight_clock : t0 <= clock s;
  flight_key : same_key key s;
  flight_registry : registry_inv s;
  flight_mutex : mutex_inv s;
  flight_phase_of : flight_phase key c0 v w deadline s
}.

(** A batch that loads again: the loader was called twice at least since
    [c0], or once and a goroutine is about to call it. *)
Definition reloading (c0 : loadingCache) (s : machine) : Prop :=
  (length (loaderCalls c0) + 2 <= length (loaderCalls (cache s)))%nat \/
  ((length (loaderCalls c0) + 1 <= length (loaderCalls (cache s)))%nat /\
   exists i op m, threads s !! i = Some (op, AtLoad m)).

(** The reply of a goroutine whose call of [Get] ended as [r]. *)
Definition Get_reply (r : result V) : option reply :=
  match r with
  | Return v => Some (GetReturned v)
  | Panic e => Some (Panicked e)
  | Blocked => None
  end.

(** The most statements a goroutine still has to run. *)
Definition remaining (p : pc) : nat :=
  match p with
  | AtEntry => 10
  | AtLookup => 9
  | AtNewLock => 8
  | AtInsert _ => 7
  | AtGuardExit _ => 6
  | AtAcquire _ => 5
  | AtRead _ => 4
  | AtLoad _ => 3
  | AtStore _ _ => 2
  | AtKeyExit _ _ => 1
  | Finished _ => 0
  end%nat.

Definition work (s : machine) : nat :=
  sum_list_with (fun t => remaining (snd t)) (threads s).

(** Who holds what, in a machine whose goroutines all work on [key]: a
    locked guard has a goroutine inside it, the lock of the key is a mutex
    of the heap and, when locked, has a goroutine in its critical section,
    and a mutex that was created and is not stored yet is unlocked. *)
Record live_inv (key : K) (s : machine) : Prop := mkLiveInv {
  guard_owner :
    lockMapLock (cache s) = true ->
    exists i op p, threads s !! i = Some (op, p) /\ in_guard p = true;
  lock_valid : forall m,
    lockMap (cache s) !! key = Some m -> is_Some (mutexes (cache s) !! m);
  lock_owner : forall m,
    lockMap (cache s) !! key = Some m ->
    mutexes (cache s) !! m = Some true ->
    exists i op p, threads s !! i = Some (op, p) /\ in_critical p = true;
  fresh_unlocked : forall i op m,
    threads s !! i = Some (op, AtInsert m) ->
    mutexes (cache s) !! m = Some false
}.

(** ** Predicates of the statements *)

(** No call is in progress on [key]: the registry guard is free and so is
    the lock of [key], if it has one. *)
Definition uncontended (c : loadingCache) (key : K) : bool :=
  negb (lockMapLock c) &&
  match lockMap c !! key with
  | Some m => bool_decide (mutexes c !! m = Some false)
  | None => true
  end.

(** The cache once [key] has its lock in the registry: unchanged when it had
    one, and otherwise with a new unlocked mutex registered for [key]. *)
Definition registered (key : K) (c : loadingCache) : loadingCache :=
  match lockMap c !! key with
  | Some _ => c
  | None =>
      lockMap_store key (length (mutexes c))
        (set_mutexes (fun h => h ++ [false]) c)
  end.

(** The loader was not called between [c] and [c']. *)
Definition loader_untouched (c c' : loadingCache) : Prop :=
  loaderCalls c' = loaderCalls c /\ loaderWorld c' = loaderWorld c.

(** The loader was called exactly once between [c] and [c'], with [key]. *)
Definition loader_called_once (key : K) (c c' : loadingCache) : Prop :=
  loaderCalls c' = loaderCalls c ++ [key].

(** ** Calls one after the other

    A goroutine that calls the cache several times in a row, each call with
    the clock readings it gets.  A panic of the loader ends the call it
    happens in; the calls that follow are those of a caller that
    recovers. *)
Inductive timed_call : Type :=
| GetAt (key : K) (now1 now2 : Z)
| PutAt (key : K) (value : V) (now : Z).

Definition Put_reply (r : result unit) : option reply :=
  match r with
  | Return _ => Some PutReturned
  | Panic e => Some (Panicked e)
  | Blocked => None
  end.

(** One call: its reply, or [None] when it waits for ever. *)
Definition run_call (tc : timed_call) (c : loadingCache)
    : option reply * loadingCache :=
  match tc with
  | GetAt key now1 now2 =>
      let '(r, c') := Get key now1 now2 c in (Get_reply r, c')
  | PutAt key value now =>
      let '(r, c') := Put key value now c in (Put_reply r, c')
  end.

Fixpoint run_calls (calls : list timed_call) (c : loadingCache)
    : list (option reply) * loadingCache :=
  match calls with
  | [] => ([], c)
  | tc :: rest =>
      let '(r, c') := run_call tc c in
      let '(rs, c'') := run_calls rest c' in
      (r :: rs, c'')
  end.

(** No mutex of the cache is held. *)
Definition idle (c : loadingCache) : Prop :=
  forall key, uncontended c key = true.

(** ** Any calls on one cache *)

(** The machine at the birth of a cache: the cache [NewLoadingCache] builds,
    and the calls that will ever be made on it, none of them started. *)
Definition new_pool (f : K -> W -> loaded * W) (ttl : Z) (w : W) (t : Z)
    (ops : list call) : machine :=
  mkMachine (NewLoadingCache f ttl w) t (map (fun op => (op, AtEntry)) ops).

(** Every call of the pool is on [key]. *)
Definition on_key (key : K) (ops : list call) : bool :=
  forallb (fun op => bool_decide (call_key op = key)) ops.

(** What holds in every machine that a schedule reaches from [new_pool],
    whatever the calls and their keys.  The heap: a lock of the registry is
    a mutex, two keys never share one, and a mutex that is created and not
    stored yet is unlocked and is the lock of no key.  The locks: of the
    goroutines of one key one at most is in the critical section, its lock is
    held, and a held lock or guard has a goroutine inside. *)
Record pool_inv (s : machine) : Prop := mkPoolInv {
  pool_registry : registry_inv s;
  registry_valid : forall k m,
    lockMap (cache s) !! k = Some m -> is_Some (mutexes (cache s) !! m);
  registry_injective : forall k1 k2 m,
    lockMap (cache s) !! k1 = Some m -> lockMap (cache s) !! k2 = Some m ->
    k1 = k2;
  pending_fresh : forall i op m,
    threads s !! i = Some (op, AtInsert m) ->
    mutexes (cache s) !! m = Some false /\
    forall k, lockMap (cache s) !! k <> Some m;
  key_exclusive : forall i j opi p_i opj p_j,
    threads s !! i = Some (opi, p_i) -> threads s !! j = Some (opj, p_j) ->
    call_key opi = call_key opj ->
    in_critical p_i = true -> in_critical p_j = true -> i = j;
  key_locked : forall i op p m,
    threads s !! i = Some (op, p) -> in_critical p = true ->
    obtained p = Some m -> mutexes (cache s) !! m = Some true;
  key_owner : forall k m,
    lockMap (cache s) !! k = Some m ->
    mutexes (cache s) !! m = Some true ->
    exists i op p,
      threads s !! i = Some (op, p) /\ call_key op = k /\
      in_critical p = true;
  guard_has_owner :
    lockMapLock (cache s) = true ->
    exists i op p, threads s !! i = Some (op, p) /\ in_guard p = true
}.

Definition is_Get (op : call) : bool :=
  match op with
  | CallGet _ => true
  | CallPut _ _ => false
  end.

Definition count_Gets (ops : list call) : nat :=
  sum_list_with (fun op => if is_Get op then 1%nat else 0%nat) ops.

(** A call of [Get] that has not reached its store: it may still call the
    loader. *)
Definition may_load (t : call * pc) : nat :=
  if is_Get (fst t) && before_store (snd t) then 1%nat else 0%nat.

Definition loads_left (s : machine) : nat :=
  sum_list_with may_load (threads s).

(** A program counter on the path of [Put]: not at the test of [Get] nor at
    its call of the loader. *)
Definition off_Get_path (p : pc) : bool :=
  match p with
  | AtRead _ | AtLoad _ => false
  | _ => true
  end.

(** What the pool [ops] keeps of the loader and of the two maps. *)
Record usage_inv (w : W) (ops : list call) (s : machine) : Prop := mkUsageInv {
  usage_ops : fst <$> threads s = ops;
  usage_Put : forall i k v p,
    threads s !! i = Some (CallPut k v, p) -> off_Get_path p = true;
  usage_budget :
    (length (loaderCalls (cache s)) + loads_left s <= count_Gets ops)%nat;
  usage_keys : forall k,
    k ∈ loaderCalls (cache s) -> CallGet k ∈ ops;
  usage_world : loaderCalls (cache s) = [] -> loaderWorld (cache s) = w;
  usage_locks : forall k,
    is_Some (lockMap (cache s) !! k) -> k ∈ call_key <$> ops;
  usage_entries : forall k,
    is_Some (dataMap (cache s) !! k) -> k ∈ call_key <$> ops
}.

(** A batch of [Get]s of [key] that only read the entry [e] of the cache
    [c0]. *)
Record reading_inv (key : K) (c0 : loadingCache) (e : CacheValue)
    (s : machine) : Prop := mkReadingInv {
  reading_store : dataMap (cache s) = dataMap c0;
  reading_calls : loaderCalls (cache s) = loaderCalls c0;
  reading_world : loaderWorld (cache s) = loaderWorld c0;
  reading_threads : forall i op p,
    threads s !! i = Some (op, p) -> op = CallGet key /\ serves (Value e) p
}.

(** Every entry of the value store was stored between the time [t0] and
    now, with the TTL [ttl] added. *)
Record entries_inv (t0 ttl : Z) (s : machine) : Prop := mkEntriesInv {
  entries_ttl : cacheDuration (cache s) = ttl;
  entries_clock : t0 <= clock s;
  entries_window : forall k e,
    dataMap (cache s) !! k = Some e ->
    t0 + ttl <= Expiration e <= clock s + ttl
}.

End LoadingCache.

Arguments CacheValue V : clear implicits.
Arguments loaded V E : clear implicits.
Arguments loadingCache K {_ _} V E W.
Arguments result E A : clear implicits.
Arguments Return {E A} a.
Arguments Panic {E A} e.
Arguments Blocked {E A}.
Arguments call K V : clear implicits.
Arguments reply V E : clear implicits.
Arguments pc V E : clear implicits.
Arguments machine K {_ _} V E W.
Arguments timed_call K V : clear implicits.

(** ** Concrete caches, for the examples *)

Module Demo.

(** The loader [key -> key * 2]; its world counts its calls, and it panics
    on a negative key, with the key as the panic value. *)
Definition doubling (key : Z) (w : nat) : loaded Z Z * nat :=
  if key <? 0 then (Panics key, S w) else (Loaded (key * 2), S w).

(** A loader whose value changes from one call to the next. *)
Definition ticket (key : Z) (w : nat) : loaded Z Z * nat :=
  (Loaded (key * 2 + 1000 * Z.of_nat w), S w).

Definition doubling_cache (ttl : Z) : loadingCache Z Z Z nat :=
  NewLoadingCache doubling ttl 0%nat.

Definition ticket_cache (ttl : Z) : loadingCache Z Z Z nat :=
  NewLoadingCache ticket ttl 0%nat.

(** The cache after [Get(5)] whose entry was stored at time [t]. *)
Definition after_Get5 (ttl t : Z) : loadingCache Z Z Z nat :=
  snd (Get 5 t t (doubling_cache ttl)).

(** The cache after [Put(5, 999)] at time [t]. *)
Definition after_Put5 (ttl t : Z) : loadingCache Z Z Z nat :=
  snd (Put 5 999 t (doubling_cache ttl)).

(** Two goroutines in [Get(5)].  Goroutine 0 creates the lock of the key and
    takes it; goroutine 1 obtains the same lock and has to wait for it. *)
Definition both_inside : list action :=
  [Step 0; Step 0; Step 0; Step 0; Step 0; Step 0; Step 1; Step 1; Step 1].

(** Goroutine 0 reads, loads, stores and unlocks. *)
Definition winner_finishes : list action := [Step 0; Step 0; Step 0; Step 0].

(** Goroutine 0 reads and calls the loader, [dt] nanoseconds pass before it
    stores, and it unlocks. *)
Definition winner_loads_slowly (dt : N) : list action :=
  [Step 0; Step 0; Tick dt; Step 0; Step 0].

(** Goroutine 1 takes the lock [dt] nanoseconds later and finds the entry. *)
Definition loser_hits (dt : N) : list action :=
  [Tick dt; Step 1; Step 1; Step 1].

(** Goroutine 1 takes the lock [dt] nanoseconds later and loads again. *)
Definition loser_loads (dt : N) : list action :=
  [Tick dt; Step 1; Step 1; Step 1; Step 1; Step 1].

(** Two goroutines about to call [Get(5)] at time 0 on a new cache. *)
Definition two_Gets (ttl : Z) : machine Z Z Z nat :=
  concurrent_Gets 2 5 (ticket_cache ttl) 0.

(** A load that lasts longer than the TTL of 100, and a waiting caller that
    tests the entry 90 nanoseconds after the store. *)
Definition slow_batch : list action :=
  both_inside ++ winner_loads_slowly 150 ++ loser_hits 90.

(** Three calls on a new cache with the loader [doubling]: a [Get] of 5, a
    [Put] of 7 and a [Get] of 7. *)
Definition mixed_calls : list (call Z Z) := [CallGet 5; CallPut 7 70; CallGet 7].

Definition mixed_pool : machine Z Z Z nat :=
  new_pool doubling 100 0%nat 0 mixed_calls.

(** Goroutine 0 takes the lock of 5, goroutine 1 creates and takes the lock
    of 7, and goroutine 2 obtains the lock of 7 and has to wait for it. *)
Definition mixed_schedule : list action :=
  replicate 6 (Step 0) ++ replicate 6 (Step 1) ++ replicate 3 (Step 2).

(** Three calls on the key 5: a [Get], a [Put] and a [Get]. *)
Definition one_key_calls : list (call Z Z) :=
  [CallGet 5; CallPut 5 50; CallGet 5].

(** Goroutine 0 takes the lock of 5 and is about to call the loader; the
    two others obtain the same lock and have to wait for it. *)
Definition one_key_schedule : list action :=
  replicate 7 (Step 0) ++ replicate 3 (Step 1) ++ replicate 3 (Step 2).

(** Two [Put]s and nothing else. *)
Definition two_Puts : list (call Z Z) := [CallPut 5 50; CallPut 7 70].

(** A cache with a negative TTL. *)
Definition negative_cache : loadingCache Z Z Z nat := doubling_cache (-1).

(** Two goroutines about to call [Get(5)] at time 1 on a cache that has the
    entry of 5 until time 100. *)
Definition two_readers : machine Z Z Z nat :=
  concurrent_Gets 2 5 (after_Get5 100 0) 1.

End Demo.

(** * Properties *)

Section Properties.

Context {K : Type} `{Countable K}.
Context {V E W : Type}.

Implicit Types (c : loadingCache K V E W) (key : K) (e : CacheValue V).
Implicit Types (now : Z).

(** ** Expiration *)

Lemma Expired_iff e now : Expired e now = true <-> Expiration e < now.
Proof. unfold Expired, time_Before. apply Z.ltb_lt. Qed.

Lemma Expired_false_iff e now : Expired e now = false <-> now <= Expiration e.
Proof. unfold Expired, time_Before. apply Z.ltb_ge. Qed.

(** ** One call on an uncontended key *)

Lemma uncontended_guard c key : uncontended c key = true -> lockMapLock c = false.
Proof.
  unfold uncontended. intros Hu. apply andb_prop in Hu as [Hg _].
  by destruct (lockMapLock c).
Qed.

Lemma uncontended_lock c key m :
  uncontended c key = true -> lockMap c !! key = Some m ->
  mutexes c !! m = Some false.
Proof.
  unfold uncontended. intros Hu Hm. apply andb_prop in Hu as [_ Hk].
  rewrite Hm in Hk. by apply bool_decide_eq_true in Hk.
Qed.

Lemma getKeyLockFromMap_free c key :
  lockMapLock c = false ->
  getKeyLockFromMap key c =
    (Return (default (length (mutexes c)) (lockMap c !! key)), registered key c).
Proof.
  intros Hg. destruct c as [d l g f ttl h w tr]. simpl in Hg. subst g.
  unfold getKeyLockFromMap, registered, bind, try, defer, gets, act, modify, ret.
  simpl. destruct (l !! key); reflexivity.
Qed.

(** The lock that [getKeyLockFromMap] hands out is free in an uncontended
    cache, and locking then unlocking it gives the registered cache back. *)
Lemma registered_lock_free c key :
  uncontended c key = true ->
  mutexes (registered key c) !! default (length (mutexes c)) (lockMap c !! key)
    = Some false.
Proof.
  intros Hu. unfold registered.
  destruct (lockMap c !! key) as [m|] eqn:Hm; simpl.
  - by eapply uncontended_lock.
  - by apply list_lookup_middle.
Qed.

Lemma registered_frame c key :
  dataMap (registered key c) = dataMap c /\
  loadingFunc (registered key c) = loadingFunc c /\
  cacheDuration (registered key c) = cacheDuration c /\
  loaderWorld (registered key c) = loaderWorld c /\
  loaderCalls (registered key c) = loaderCalls c /\
  lockMapLock (registered key c) = lockMapLock c.
Proof. unfold registered. by destruct (lockMap c !! key). Qed.

(** On an uncontended key the lock traffic of [Get] cancels out: the call
    is its body run on the registered cache. *)
Lemma Get_uncontended c key now1 now2 :
  uncontended c key = true ->
  Get key now1 now2 c =
    match dataMap c !! key with
    | None => load_and_store key now2 (registered key c)
    | Some value =>
        if Expired value now1 then load_and_store key now2 (registered key c)
        else (Return (Value value), registered key c)
    end.
Proof.
  intros Hu. pose proof (registered_lock_free c key Hu) as Hfree.
  unfold Get, bind at 1.
  rewrite getKeyLockFromMap_free by by eapply uncontended_guard.
  destruct (registered_frame c key) as (Hd & _). rewrite <- Hd.
  set (m := default _ _) in *. set (c0 := registered key c) in *.
  clearbody c0 m. clear Hd Hu.
  destruct c0 as [d l g f ttl h w tr]. simpl in *.
  assert (Hh : <[m:=false]> (<[m:=true]> h) = h).
  { rewrite list_insert_insert_eq. by apply list_insert_id. }
  unfold bind, try, Mutex_Lock, defer, gets, load_and_store, act, call_loader,
    bind, modify, ret, panic. simpl. rewrite Hfree. simpl.
  destruct (f key w) as [[v|e] w'] eqn:Hl;
    (destruct (d !! key) as [value|]; [destruct (Expired value now1)|]);
    simpl; rewrite ?Hl; simpl;
    unfold Mutex_Unlock, dataMap_store, set_loader, set_mutexes, set_dataMap;
    simpl; rewrite Hh; reflexivity.
Qed.

Lemma Put_uncontended c key (value : V) now :
  uncontended c key = true ->
  Put key value now c = (Return tt, dataMap_store key value now (registered key c)).
Proof.
  intros Hu. pose proof (registered_lock_free c key Hu) as Hfree.
  unfold Put, bind at 1.
  rewrite getKeyLockFromMap_free by by eapply uncontended_guard.
  set (m := default _ _) in *. set (c0 := registered key c) in *.
  clearbody c0 m. clear Hu.
  destruct c0 as [d l g f ttl h w tr]. simpl in *.
  assert (Hh : <[m:=false]> (<[m:=true]> h) = h).
  { rewrite list_insert_insert_eq. by apply list_insert_id. }
  unfold bind, try, Mutex_Lock, defer, modify. simpl. rewrite Hfree. simpl.
  unfold Mutex_Unlock, dataMap_store, set_mutexes, set_dataMap. simpl.
  by rewrite Hh.
Qed.

Lemma load_and_store_Loaded c key now (newValue : V) (w : W) :
  loadingFunc c key (loaderWorld c) = (Loaded newValue, w) ->
  load_and_store key now c =
    (Return newValue, dataMap_store key newValue now (set_loader w key c)).
Proof.
  intros Hl. unfold load_and_store, bind, act, call_loader. by rewrite Hl.
Qed.

Lemma load_and_store_Panics c key now (e : E) (w : W) :
  loadingFunc c key (loaderWorld c) = (Panics e, w) ->
  load_and_store key now c = (Panic e, set_loader w key c).
Proof.
  intros Hl. unfold load_and_store, bind, act, call_loader. by rewrite Hl.
Qed.

(** A call leaves the key uncontended, so calls can follow one another. *)
Lemma registered_uncontended c key :
  uncontended c key = true -> uncontended (registered key c) key = true.
Proof.
  intros Hu. unfold registered.
  destruct (lockMap c !! key) as [m|] eqn:Hm; [done|].
  unfold uncontended in *. simpl. rewrite lookup_insert_eq.
  apply andb_prop in Hu as [-> _]. simpl.
  apply bool_decide_eq_true. by apply list_lookup_middle.
Qed.

Lemma must_load_true_iff (entry : option (CacheValue V)) now :
  must_load entry now = true <->
  entry = None \/ exists value, entry = Some value /\ Expired value now = true.
Proof.
  destruct entry as [value|]; simpl; split; eauto.
  - intros [?|(v & [= <-] & ?)]; done.
Qed.

Lemma Get_loads c key now1 now2 (newValue : V) (w : W) :
  uncontended c key = true ->
  must_load (dataMap c !! key) now1 = true ->
  loadingFunc c key (loaderWorld c) = (Loaded newValue, w) ->
  Get key now1 now2 c =
    (Return newValue,
     dataMap_store key newValue now2 (set_loader w key (registered key c))).
Proof.
  intros Hu Hm Hl. rewrite Get_uncontended by done.
  destruct (registered_frame c key) as (_ & Hf & _ & Hw & _).
  assert (load_and_store key now2 (registered key c) =
    (Return newValue,
     dataMap_store key newValue now2 (set_loader w key (registered key c)))) as Hls.
  { apply load_and_store_Loaded. by rewrite Hf, Hw. }
  destruct (dataMap c !! key) as [value|]; simpl in Hm; [rewrite Hm|]; done.
Qed.

Lemma Get_panics c key now1 now2 (e : E) (w : W) :
  uncontended c key = true ->
  must_load (dataMap c !! key) now1 = true ->
  loadingFunc c key (loaderWorld c) = (Panics e, w) ->
  Get key now1 now2 c = (Panic e, set_loader w key (registered key c)).
Proof.
  intros Hu Hm Hl. rewrite Get_uncontended by done.
  destruct (registered_frame c key) as (_ & Hf & _ & Hw & _).
  assert (load_and_store key now2 (registered key c) =
    (Panic e, set_loader w key (registered key c))) as Hls.
  { apply load_and_store_Panics. by rewrite Hf, Hw. }
  destruct (dataMap c !! key) as [value|]; simpl in Hm; [rewrite Hm|]; done.
Qed.

Lemma Get_hits c key now1 now2 (value : CacheValue V) :
  uncontended c key = true ->
  dataMap c !! key = Some value ->
  Expired value now1 = false ->
  Get key now1 now2 c = (Return (Value value), registered key c).
Proof.
  intros Hu Hd He. rewrite Get_uncontended by done. by rewrite Hd, He.
Qed.

(** Whatever the loader does, a [Get] that has to load calls it once. *)
Lemma Get_calls_loader c key now1 now2 :
  uncontended c key = true ->
  must_load (dataMap c !! key) now1 = true ->
  loader_called_once key c (snd (Get key now1 now2 c)).
Proof.
  intros Hu Hm. destruct (registered_frame c key) as (_ & _ & _ & _ & Hc & _).
  destruct (loadingFunc c key (loaderWorld c)) as [[v|e] w] eqn:Hl.
  - erewrite Get_loads by done. unfold loader_called_once. simpl. by rewrite Hc.
  - erewrite Get_panics by done. unfold loader_called_once. simpl. by rewrite Hc.
Qed.

Lemma uncontended_dataMap_store c key k (v : V) now :
  uncontended (dataMap_store k v now c) key = uncontended c key.
Proof. reflexivity. Qed.

Lemma uncontended_set_loader c key k (w : W) :
  uncontended (set_loader w k c) key = uncontended c key.
Proof. reflexivity. Qed.

Lemma dataMap_store_lookup c key (v : V) now :
  dataMap (dataMap_store key v now c) !! key =
    Some (mkCacheValue v (now + cacheDuration c)).
Proof. unfold dataMap_store, time_Add. simpl. apply lookup_insert_eq. Qed.

(** The cache a loading [Get] leaves: uncontended again, with the entry of
    the key holding the loaded value and the expiration [now2 + ttl]. *)
Lemma Get_loads_after c key now1 now2 (v : V) c' :
  uncontended c key = true ->
  must_load (dataMap c !! key) now1 = true ->
  Get key now1 now2 c = (Return v, c') ->
  uncontended c' key = true /\
  cacheDuration c' = cacheDuration c /\
  dataMap c' !! key = Some (mkCacheValue v (now2 + cacheDuration c)).
Proof.
  intros Hu Hm HG.
  destruct (registered_frame c key) as (_ & _ & Ht & _).
  destruct (loadingFunc c key (loaderWorld c)) as [[v'|e] w] eqn:Hl.
  - erewrite Get_loads in HG by done. injection HG as <- <-.
    rewrite uncontended_dataMap_store, uncontended_set_loader.
    split; [by apply registered_uncontended|].
    split; [done|]. rewrite dataMap_store_lookup. simpl. by rewrite Ht.
  - erewrite Get_panics in HG by done. discriminate.
Qed.

(** ** The claims about one call *)

(** C3, as the code has it: an entry is expired exactly when its
    [Expiration] is strictly before the current time; an entry whose
    [Expiration] equals the current time is not expired. *)
Theorem Expired_strictly_after e now :
  (Expired e now = true <-> Expiration e < now) /\
  Expired e (Expiration e) = false.
Proof.
  split; [apply Expired_iff|]. apply Expired_false_iff. lia.
Qed.

(** C2: [Get] on a key with no entry, or with an expired entry, calls the
    loader with the key, stores the new value with the expiration
    [now + ttl] in place of any entry of the key, and returns the new value;
    on a key with an entry that is not expired it returns the value of the
    entry, and the loader is not called. *)
Theorem Get_load_or_hit c key now1 now2 :
  uncontended c key = true ->
  ((dataMap c !! key = None \/
    exists value, dataMap c !! key = Some value /\ Expired value now1 = true) ->
   forall (newValue : V) (w : W),
     loadingFunc c key (loaderWorld c) = (Loaded newValue, w) ->
     exists c',
       Get key now1 now2 c = (Return newValue, c') /\
       dataMap c' =
         <[key := mkCacheValue newValue (now2 + cacheDuration c)]> (dataMap c) /\
       loader_called_once key c c' /\ loaderWorld c' = w) /\
  (forall value,
     dataMap c !! key = Some value -> Expired value now1 = false ->
     exists c',
       Get key now1 now2 c = (Return (Value value), c') /\
       dataMap c' = dataMap c /\ loader_untouched c c').
Proof.
  intros Hu. destruct (registered_frame c key) as (Hd & _ & Ht & Hw & Hc & _).
  split.
  - intros Hstale newValue w Hl. apply must_load_true_iff in Hstale.
    eexists. split; [by apply Get_loads|].
    unfold loader_called_once, dataMap_store, time_Add. simpl.
    by rewrite Hd, Ht, Hc.
  - intros value Hv He. eexists. split; [by apply Get_hits|].
    unfold loader_untouched. by rewrite Hd, Hc, Hw.
Qed.

(** C4: after a [Get] that loaded and stored its value at time [t], with
    [d] the TTL, a [Get] of the same key at [t + d - eps] ([0 < eps <= d])
    returns the cached value and the loader is not called, and a [Get] at
    [t + d + eps] ([0 < eps]) calls the loader again. *)
Theorem ttl_window c key now1 t (v : V) c' :
  uncontended c key = true ->
  must_load (dataMap c !! key) now1 = true ->
  Get key now1 t c = (Return v, c') ->
  let d := cacheDuration c in
  (forall eps now2, 0 < eps <= d ->
     exists c'', Get key (t + d - eps) now2 c' = (Return v, c'') /\
                 loader_untouched c' c'') /\
  (forall eps now2, 0 < eps ->
     loader_called_once key c' (snd (Get key (t + d + eps) now2 c'))).
Proof.
  intros Hu Hm HG d.
  destruct (Get_loads_after c key now1 t v c' Hu Hm HG) as (Hu' & Ht' & Hd').
  fold d in Hd'. split.
  - intros eps now2 Heps.
    destruct (registered_frame c' key) as (_ & _ & _ & Hw & Hc & _).
    eexists. split.
    + rewrite (Get_hits c' key _ now2 _ Hu' Hd'); [done|].
      apply Expired_false_iff. simpl. lia.
    + unfold loader_untouched. by rewrite Hw, Hc.
  - intros eps now2 Heps. apply Get_calls_loader; [done|].
    rewrite Hd'. simpl. apply Expired_iff. simpl. lia.
Qed.

(** C5: when the loader panics inside [Get], the panic value reaches the
    caller of [Get] as it is, the lock of the key is released, the value
    store is unchanged, and a later [Get] of the key calls the loader
    again. *)
Theorem loader_panic_not_cached c key now1 now2 (e : E) (w : W) :
  uncontended c key = true ->
  must_load (dataMap c !! key) now1 = true ->
  loadingFunc c key (loaderWorld c) = (Panics e, w) ->
  exists c',
    Get key now1 now2 c = (Panic e, c') /\
    (exists m, lockMap c' !! key = Some m /\ mutexes c' !! m = Some false) /\
    lockMapLock c' = false /\
    dataMap c' = dataMap c /\
    forall now3 now4, now1 <= now3 ->
      loader_called_once key c' (snd (Get key now3 now4 c')).
Proof.
  intros Hu Hm Hl. eexists. split; [by apply Get_panics|].
  destruct (registered_frame c key) as (Hd & _ & _ & _ & _ & Hg).
  pose proof (registered_uncontended c key Hu) as Hu'.
  rewrite <- (uncontended_set_loader _ key key w) in Hu'.
  split; [|split; [|split]].
  - simpl. unfold registered.
    destruct (lockMap c !! key) as [m|] eqn:Hk.
    + exists m. split; [done|]. by eapply uncontended_lock.
    + exists (length (mutexes c)). simpl. rewrite lookup_insert_eq.
      split; [done|]. by apply list_lookup_middle.
  - simpl. rewrite Hg. by eapply uncontended_guard.
  - simpl. done.
  - intros now3 now4 Hle. apply Get_calls_loader; [done|].
    simpl. rewrite Hd. destruct (dataMap c !! key) as [value|]; [|done].
    simpl in *. apply Expired_iff in Hm. apply Expired_iff. lia.
Qed.

(** C9: a [Get] that finds an entry that is not expired writes nothing: it
    returns the value of the entry, the value store and the loader are as
    before, and the cache is the one it started from, but for the lock of
    the key when the key had none. *)
Theorem Get_hit_writes_nothing c key now1 now2 (value : CacheValue V) :
  uncontended c key = true ->
  dataMap c !! key = Some value ->
  Expired value now1 = false ->
  exists c',
    Get key now1 now2 c = (Return (Value value), c') /\
    dataMap c' = dataMap c /\
    loader_untouched c c' /\
    (is_Some (lockMap c !! key) -> c' = c) /\
    (lockMap c !! key = None ->
       c' = lockMap_store key (length (mutexes c))
              (set_mutexes (fun h => h ++ [false]) c)).
Proof.
  intros Hu Hd He. exists (registered key c).
  destruct (registered_frame c key) as (Hd' & _ & _ & Hw & Hc & _).
  split; [by apply Get_hits|]. split; [done|]. split; [by split|].
  unfold registered. split.
  - by intros [m ->].
  - by intros ->.
Qed.

(** What a [Get] does on a key whose entry was just written at time [t]. *)
Lemma Get_after_write c key (v : V) t now1 now2 :
  uncontended c key = true ->
  dataMap c !! key = Some (mkCacheValue v (t + cacheDuration c)) ->
  (now1 <= t + cacheDuration c ->
     exists c', Get key now1 now2 c = (Return v, c') /\ loader_untouched c c') /\
  (t + cacheDuration c < now1 ->
     loader_called_once key c (snd (Get key now1 now2 c))).
Proof.
  intros Hu Hd. split; intros Ht.
  - destruct (registered_frame c key) as (_ & _ & _ & Hw & Hc & _).
    eexists. split.
    + rewrite (Get_hits c key now1 now2 _ Hu Hd); [done|].
      apply Expired_false_iff. simpl. lia.
    + by split.
  - apply Get_calls_loader; [done|]. rewrite Hd. simpl.
    apply Expired_iff. simpl. lia.
Qed.

(** C6, as the code has it: [Put] never calls the loader and writes the
    entry [{value, now + ttl}] over whatever the key had; a [Get] of the key
    that follows returns the value without calling the loader as long as it
    reads a clock that is not later than the time of the [Put] plus the TTL,
    and calls the loader once its clock is later than that. *)
Theorem Put_then_Get c key (v : V) t_put t_get now2 :
  uncontended c key = true ->
  exists c1,
    Put key v t_put c = (Return tt, c1) /\
    loader_untouched c c1 /\
    dataMap c1 = <[key := mkCacheValue v (t_put + cacheDuration c)]> (dataMap c) /\
    (t_get <= t_put + cacheDuration c ->
       exists c2, Get key t_get now2 c1 = (Return v, c2) /\
                  loader_untouched c1 c2) /\
    (t_put + cacheDuration c < t_get ->
       loader_called_once key c1 (snd (Get key t_get now2 c1))).
Proof.
  intros Hu. eexists. split; [by apply Put_uncontended|].
  destruct (registered_frame c key) as (Hd & _ & Ht & Hw & Hc & _).
  set (c1 := dataMap_store key v t_put (registered key c)).
  assert (Hu1 : uncontended c1 key = true).
  { unfold c1. rewrite uncontended_dataMap_store.
    by apply registered_uncontended. }
  assert (Hd1 : dataMap c1 !! key =
                Some (mkCacheValue v (t_put + cacheDuration c1))).
  { unfold c1. by rewrite dataMap_store_lookup. }
  assert (Ht1 : cacheDuration c1 = cacheDuration c) by done.
  split; [by split|]. split.
  { unfold c1, dataMap_store, time_Add. simpl. by rewrite Hd, Ht. }
  rewrite <- Ht1. by apply Get_after_write.
Qed.

(** C7, as the code has it: with a TTL of zero an entry written at time [t]
    by [Get] or by [Put] is expired at every later access whose clock is
    strictly after [t], and that [Get] calls the loader again; at an access
    that still reads the clock [t] the entry is served.  The value a [Get]
    loads is returned to its caller all the same. *)
Theorem zero_ttl c key :
  cacheDuration c = 0 ->
  uncontended c key = true ->
  (forall now1 now2 (v : V) (w : W),
     must_load (dataMap c !! key) now1 = true ->
     loadingFunc c key (loaderWorld c) = (Loaded v, w) ->
     exists c',
       Get key now1 now2 c = (Return v, c') /\
       forall now3 now4,
         (now2 < now3 ->
            loader_called_once key c' (snd (Get key now3 now4 c'))) /\
         (now3 <= now2 ->
            exists c'', Get key now3 now4 c' = (Return v, c'') /\
                        loader_untouched c' c'')) /\
  (forall (v : V) t,
     exists c1,
       Put key v t c = (Return tt, c1) /\
       forall now3 now4,
         (t < now3 ->
            loader_called_once key c1 (snd (Get key now3 now4 c1))) /\
         (now3 <= t ->
            exists c'', Get key now3 now4 c1 = (Return v, c'') /\
                        loader_untouched c1 c'')).
Proof.
  intros Hz Hu. split.
  - intros now1 now2 v w Hm Hl. eexists. split; [by apply Get_loads|].
    set (c' := dataMap_store _ _ _ _).
    assert (HG : Get key now1 now2 c = (Return v, c')) by by apply Get_loads.
    destruct (Get_loads_after c key now1 now2 v c' Hu Hm HG) as (Hu' & Ht' & Hd').
    rewrite <- Ht' in Hd'.
    intros now3 now4.
    destruct (Get_after_write c' key v now2 now3 now4 Hu' Hd') as [Hhit Hmiss].
    rewrite Ht', Hz in Hhit, Hmiss. split; intros Hc.
    + apply Hmiss. lia.
    + apply Hhit. lia.
  - intros v t. eexists. split; [by apply Put_uncontended|].
    set (c1 := dataMap_store _ _ _ _).
    assert (Hu1 : uncontended c1 key = true).
    { unfold c1. rewrite uncontended_dataMap_store.
      by apply registered_uncontended. }
    assert (Hd1 : dataMap c1 !! key =
                  Some (mkCacheValue v (t + cacheDuration c1))).
    { unfold c1. by rewrite dataMap_store_lookup. }
    assert (Ht1 : cacheDuration c1 = 0).
    { destruct (registered_frame c key) as (_ & _ & Ht & _).
      unfold c1. simpl. by rewrite Ht. }
    intros now3 now4.
    destruct (Get_after_write c1 key v t now3 now4 Hu1 Hd1) as [Hhit Hmiss].
    rewrite Ht1 in Hhit, Hmiss. split; intros Hc.
    + apply Hmiss. lia.
    + apply Hhit. lia.
Qed.

(** ** The machine *)

Implicit Types (s : machine K V E W) (op : call K V) (p : pc V E).

Lemma exec_app sched1 sched2 s :
  exec (sched1 ++ sched2) s =
    match exec sched1 s with
    | Some s' => exec sched2 s'
    | None => None
    end.
Proof.
  revert s. induction sched1 as [|a sched1 IH]; intros s; simpl; [done|].
  destruct (machine_step a s); [apply IH|done].
Qed.

(** An invariant of the steps is an invariant of the schedules. *)
Lemma exec_invariant (P : machine K V E W -> Prop) :
  (forall a s s', P s -> machine_step a s = Some s' -> P s') ->
  forall sched s s', P s -> exec sched s = Some s' -> P s'.
Proof.
  intros Hstep. induction sched as [|a sched IH]; intros s s' HP Hex; simpl in Hex.
  - by injection Hex as <-.
  - destruct (machine_step a s) as [s1|] eqn:Ha; [|done].
    eapply IH; [|done]. by eapply Hstep.
Qed.

(** The clock never goes back. *)
Lemma machine_step_clock a s s' :
  machine_step a s = Some s' -> clock s <= clock s'.
Proof.
  destruct a as [i|dt]; simpl.
  - destruct (threads s !! i) as [[op p]|]; [|done].
    destruct (thread_step _ _ _ _) as [[p' c']|]; [|done].
    intros [= <-]. simpl. lia.
  - intros [= <-]. simpl. lia.
Qed.

Lemma exec_clock sched s s' : exec sched s = Some s' -> clock s <= clock s'.
Proof.
  revert s. induction sched as [|a sched IH]; intros s Hex; simpl in Hex.
  - injection Hex as <-. lia.
  - destruct (machine_step a s) as [s1|] eqn:Ha; [|done].
    apply machine_step_clock in Ha. apply IH in Hex. lia.
Qed.

(** A statement changes the value store only when it is the store of a
    call, and then at the key of that call. *)
Lemma thread_step_dataMap now op p c p' c' :
  thread_step now op p c = Some (p', c') ->
  dataMap c' = dataMap c \/
  exists m (v : V), p = AtStore m v /\
    dataMap c' =
      <[call_key op := mkCacheValue v (now + cacheDuration c)]> (dataMap c).
Proof.
  destruct p as [| | |m|m|m|m|m|m v|m r|r]; simpl; intros Hs.
  - destruct (lockMapLock c) eqn:Hg; unfold guard_Lock in Hs; rewrite Hg in Hs;
      [done|]. injection Hs as <- <-. by left.
  - destruct (lockMap c !! call_key op); injection Hs as <- <-; by left.
  - injection Hs as <- <-. by left.
  - injection Hs as <- <-. by left.
  - injection Hs as <- <-. by left.
  - unfold Mutex_Lock in Hs. destruct (mutexes c !! m) as [[|]|]; try done.
    injection Hs as <- <-. by left.
  - destruct (dataMap c !! call_key op) as [value|];
      [destruct (Expired value now)|]; injection Hs as <- <-; by left.
  - unfold call_loader in Hs.
    destruct (loadingFunc c (call_key op) (loaderWorld c)) as [[v|e] w];
      injection Hs as <- <-; by left.
  - injection Hs as <- <-. right. by exists m, v.
  - injection Hs as <- <-. by left.
  - done.
Qed.

(** ** The lock registry *)

(** Case analysis on one statement of a goroutine: one goal for each
    statement and each way out of it, with the new state spelled out. *)
Ltac step_cases Hs :=
  match type of Hs with
  | thread_step _ _ ?p _ = Some _ =>
      destruct p; simpl in Hs;
      unfold guard_Lock, Mutex_Lock, call_loader, new_Mutex in Hs;
      repeat case_match; simplify_eq
  end.

(** A lookup in the goroutines after goroutine [i] moved: either it is
    goroutine [i], or the goroutine is where it was. *)
Ltac moved H :=
  apply list_lookup_insert_Some in H as [(<- & ? & _)|(? & H)];
  [simplify_eq|].

Ltac all_moved :=
  repeat match goal with
         | H : <[_:=_]> _ !! _ = Some _ |- _ => moved H
         end.

Lemma creating_in_guard p : creating p = true -> in_guard p = true.
Proof. by destruct p. Qed.

Lemma registry_inv_step a s s' :
  registry_inv s -> machine_step a s = Some s' -> registry_inv s'.
Proof.
  intros [G1 G2 G3 G4] Hstep. destruct a as [i|dt]; simpl in Hstep.
  2: { injection Hstep as <-. by constructor. }
  destruct (threads s !! i) as [[op p]|] eqn:Hi; [|done].
  destruct (thread_step _ _ _ _) as [[p' c']|] eqn:Hs; [|done].
  injection Hstep as <-.
  step_cases Hs.
  all: constructor; simpl; intros.
  all: all_moved; simpl in *; try done; eauto.
  all: simplify_eq; try done.
  all: try by (eapply (G4 _ (CallGet _)); [done|done]).
  all: try by (eapply (G4 _ (CallPut _ _)); [done|done]).
  - (* another goroutine creating while this one stores its new lock *)
    match goal with
    | Hj : threads s !! ?j = Some (_, ?q), Hc : creating ?q = true |- _ =>
        apply creating_in_guard in Hc;
        pose proof (G1 _ _ _ _ _ _ Hi Hj eq_refl Hc)
    end. done.
  - apply lookup_insert_eq.
  - (* another goroutine that has its lock: it is for another key *)
    match goal with
    | Hj : threads s !! ?j = Some (?opj, ?q), Ho : obtained ?q = Some _ |- _ =>
        pose proof (G4 _ _ _ _ Hj Ho) as Hreg;
        pose proof (G3 _ _ _ Hi eq_refl) as Hnone
    end.
    rewrite lookup_insert_ne; [done|]. intros Heq. rewrite Heq in Hnone.
    by rewrite Hnone in Hreg.
Qed.

Lemma forallb_lookup {A} (f : A -> bool) (l : list A) i x :
  forallb f l = true -> l !! i = Some x -> f x = true.
Proof.
  intros Hall Hx. rewrite forallb_forall in Hall. apply Hall.
  apply list_elem_of_In, list_elem_of_lookup. by exists i.
Qed.

Lemma starting_registry_inv s : starting s = true -> registry_inv s.
Proof.
  unfold starting. intros Hs. apply andb_prop in Hs as [_ Hall].
  assert (Hentry : forall i op p, threads s !! i = Some (op, p) -> p = AtEntry).
  { intros i op p Hi. pose proof (forallb_lookup _ _ _ _ Hall Hi) as Hp.
    unfold at_entry in Hp. simpl in Hp. by destruct p. }
  constructor; intros.
  all: repeat match goal with
       | Hi : threads _ !! _ = Some _ |- _ => apply Hentry in Hi
       end; by simplify_eq.
Qed.

Lemma reachable_registry_inv sched s0 s :
  starting s0 = true -> exec sched s0 = Some s -> registry_inv s.
Proof.
  intros Hs. apply exec_invariant; [|by apply starting_registry_inv].
  intros a s1 s2. apply registry_inv_step.
Qed.

(** In a reachable machine a statement never changes the lock that the
    registry has for a key. *)
Lemma registry_entry_step a s s' key (m : nat) :
  registry_inv s -> machine_step a s = Some s' ->
  lockMap (cache s) !! key = Some m -> lockMap (cache s') !! key = Some m.
Proof.
  intros [G1 G2 G3 G4] Hstep Hm. destruct a as [i|dt]; simpl in Hstep.
  2: { by injection Hstep as <-. }
  destruct (threads s !! i) as [[op p]|] eqn:Hi; [|done].
  destruct (thread_step _ _ _ _) as [[p' c']|] eqn:Hs; [|done].
  injection Hstep as <-.
  step_cases Hs; simpl; try done.
  pose proof (G3 _ _ _ Hi eq_refl) as Hnone.
  rewrite lookup_insert_ne; [done|]. intros Heq. rewrite Heq in Hnone.
  by rewrite Hnone in Hm.
Qed.

Lemma registry_entry_stable sched s s' key (m : nat) :
  registry_inv s -> exec sched s = Some s' ->
  lockMap (cache s) !! key = Some m -> lockMap (cache s') !! key = Some m.
Proof.
  intros Hinv Hex Hm.
  apply (exec_invariant
           (fun s1 => registry_inv s1 /\ lockMap (cache s1) !! key = Some m))
    with (sched := sched) (s := s); [|done|done].
  intros a s1 s2 [Hinv1 Hm1] Hstep. split.
  - by eapply registry_inv_step.
  - by eapply registry_entry_step.
Qed.

(** ** One mutex for each key of the registry *)

Lemma at_insert_in_guard p : at_insert p = true -> in_guard p = true.
Proof. by destruct p. Qed.

Lemma alloc_inv_step a s s' :
  registry_inv s -> alloc_inv s -> machine_step a s = Some s' -> alloc_inv s'.
Proof.
  intros [G1 G2 G3 G4] [A1 A2] Hstep. destruct a as [i|dt]; simpl in Hstep.
  2: { injection Hstep as <-. by constructor. }
  destruct (threads s !! i) as [[op p]|] eqn:Hi; [|done].
  destruct (thread_step _ _ _ _) as [[p' c']|] eqn:Hs; [|done].
  injection Hstep as <-.
  assert (Hlen : (i < length (threads s))%nat) by by eapply lookup_lt_Some.
  assert (Hsolo : in_guard p = true ->
            forall j opj pj, threads s !! j = Some (opj, pj) -> j <> i ->
                             at_insert pj = false).
  { intros Hg j opj pj Hj Hne. destruct (at_insert pj) eqn:Hat; [|done].
    apply at_insert_in_guard in Hat.
    by pose proof (G1 _ _ _ _ _ _ Hi Hj Hg Hat). }
  assert (Hothers : at_insert p = false -> at_insert p' = false ->
            length (mutexes c') = length (mutexes (cache s)) ->
            lockMap c' = lockMap (cache s) ->
            alloc_inv (mkMachine c' (clock s) (<[i:=(op, p')]> (threads s)))).
  { intros Hp Hp' Hm Hl. constructor; simpl; rewrite Hm, Hl.
    - intros j opj pj Hj Hat. moved Hj; [congruence|]. by eapply A1.
    - intros Hnone. apply A2. intros j opj pj Hj.
      destruct (decide (j = i)) as [->|Hne]; [congruence|].
      eapply (Hnone j). by rewrite list_lookup_insert_ne. }
  step_cases Hs; simpl in *.
  all: try (apply Hothers; simpl; rewrite ?length_insert; done).
  - (* the new mutex is allocated *)
    constructor; simpl.
    + intros j opj pj Hj _. rewrite length_app. simpl.
      rewrite A2; [lia|]. intros k opk pk Hk.
      destruct (decide (k = i)) as [->|Hne]; [by simplify_eq|].
      by eapply (Hsolo eq_refl).
    + intros Hnone. specialize (Hnone i op (AtInsert (length (mutexes (cache s))))).
      rewrite list_lookup_insert_eq in Hnone by done. by specialize (Hnone eq_refl).
  - (* the new mutex is registered *)
    constructor; simpl.
    + intros j opj pj Hj Hat. moved Hj; try done.
      by rewrite (Hsolo eq_refl _ _ _ Hj) in Hat.
    + intros _. rewrite map_size_insert_None by by eapply (G3 i).
      by eapply A1.
Qed.

Lemma starting_alloc_inv s :
  starting s = true ->
  length (mutexes (cache s)) = size (lockMap (cache s)) ->
  alloc_inv s.
Proof.
  unfold starting. intros Hs Hlen. apply andb_prop in Hs as [_ Hall].
  constructor; [|done].
  intros i op p Hi Hat. pose proof (forallb_lookup _ _ _ _ Hall Hi) as Hp.
  unfold at_entry in Hp. simpl in Hp. by destruct p.
Qed.

Lemma reachable_alloc_inv sched s0 s :
  starting s0 = true ->
  length (mutexes (cache s0)) = size (lockMap (cache s0)) ->
  exec sched s0 = Some s -> alloc_inv s.
Proof.
  intros Hs Hlen Hex.
  cut (registry_inv s /\ alloc_inv s); [by intros [_ ?]|].
  apply (exec_invariant (fun s1 => registry_inv s1 /\ alloc_inv s1))
    with (sched := sched) (s := s0); [| |done].
  - intros a s1 s2 [Hreg Halloc] Hstep. split.
    + by eapply registry_inv_step.
    + by eapply alloc_inv_step.
  - split; [by apply starting_registry_inv|by apply starting_alloc_inv].
Qed.

(** C8: [getKeyLockFromMap] returns the lock of the key when the registry
    has one, and otherwise creates one new mutex, stores it for the key and
    returns it; in every machine that a schedule reaches from a start, two
    goroutines that obtained a lock for the same key obtained the same
    lock, whatever the race between them; a lock the registry has for a
    key stays the lock of that key in every machine reached later; and as
    many mutexes were created as the registry has keys, once no goroutine
    is about to store one. *)
Theorem one_lock_per_key s0 sched s :
  starting s0 = true ->
  exec sched s0 = Some s ->
  (forall c key,
     lockMapLock c = false ->
     getKeyLockFromMap key c =
       match lockMap c !! key with
       | Some lock => (Return lock, c)
       | None =>
           (Return (length (mutexes c)),
            lockMap_store key (length (mutexes c))
              (set_mutexes (fun h => h ++ [false]) c))
       end) /\
  (forall i j op_i op_j p_i p_j m_i m_j,
     threads s !! i = Some (op_i, p_i) ->
     threads s !! j = Some (op_j, p_j) ->
     call_key op_i = call_key op_j ->
     obtained p_i = Some m_i -> obtained p_j = Some m_j ->
     m_i = m_j) /\
  (forall key m sched' s',
     lockMap (cache s) !! key = Some m ->
     exec sched' s = Some s' ->
     lockMap (cache s') !! key = Some m) /\
  (length (mutexes (cache s0)) = size (lockMap (cache s0)) ->
   (forall i op p, threads s !! i = Some (op, p) -> at_insert p = false) ->
   length (mutexes (cache s)) = size (lockMap (cache s))).
Proof.
  intros Hstart Hex.
  pose proof (reachable_registry_inv sched s0 s Hstart Hex) as Hinv.
  split; [|split; [|split]].
  - intros c key Hg. rewrite getKeyLockFromMap_free by done.
    unfold registered. by destruct (lockMap c !! key).
  - intros i j op_i op_j p_i p_j m_i m_j Hi Hj Hkey Hoi Hoj.
    pose proof (obtained_registered s Hinv _ _ _ _ Hi Hoi) as Hri.
    pose proof (obtained_registered s Hinv _ _ _ _ Hj Hoj) as Hrj.
    rewrite Hkey in Hri. rewrite Hri in Hrj. by injection Hrj.
  - intros key m sched' s' Hm Hex'. by eapply registry_entry_stable.
  - intros Hlen Hnone.
    by apply (alloc_settled s (reachable_alloc_inv sched s0 s Hstart Hlen Hex)).
Qed.

(** ** The value store *)

(** The value store under a whole call, without any assumption on the
    locks: unchanged, or changed at the key of the call only. *)
Lemma Get_dataMap c key now1 now2 :
  let c' := snd (Get key now1 now2 c) in
  dataMap c' = dataMap c \/
  exists v : V,
    dataMap c' = <[key := mkCacheValue v (now2 + cacheDuration c)]> (dataMap c).
Proof.
  destruct c as [d l g f ttl h w tr].
  unfold Get, getKeyLockFromMap, load_and_store, bind, try, defer, gets, act,
    modify, ret, panic, guard_Lock, Mutex_Lock, call_loader, new_Mutex.
  simpl. repeat (case_match; simplify_eq; simpl in * ); eauto.
Qed.

Lemma Put_dataMap c key (v : V) now :
  let c' := snd (Put key v now c) in
  dataMap c' = dataMap c \/
  dataMap c' = <[key := mkCacheValue v (now + cacheDuration c)]> (dataMap c).
Proof.
  destruct c as [d l g f ttl h w tr].
  unfold Put, getKeyLockFromMap, bind, try, defer, gets, act,
    modify, ret, guard_Lock, Mutex_Lock, new_Mutex.
  simpl. repeat (case_match; simplify_eq; simpl in * ); eauto.
Qed.

Lemma insert_keeps_entries (d : gmap K (CacheValue V)) key x k :
  is_Some (d !! k) -> is_Some (<[key := x]> d !! k).
Proof.
  intros Hk. destruct (decide (key = k)) as [->|Hne].
  - rewrite lookup_insert_eq. eauto.
  - by rewrite lookup_insert_ne.
Qed.

(** C10: the value store never loses an entry.  A statement of a goroutine
    leaves every entry as it is, value and expiration, unless it is the
    store of a [Get] that loaded or of a [Put], on the key of that call;
    so a key that has an entry has one after any schedule, and after any
    whole [Get] or [Put], which leave the entries of the other keys as they
    are. *)
Theorem value_store_never_shrinks :
  (forall a s s' k value,
     machine_step a s = Some s' ->
     dataMap (cache s) !! k = Some value ->
     dataMap (cache s') !! k = Some value \/
     exists i op m v,
       a = Step i /\ threads s !! i = Some (op, AtStore m v) /\
       call_key op = k /\
       dataMap (cache s') !! k =
         Some (mkCacheValue v (clock s + cacheDuration (cache s)))) /\
  (forall sched s s' k,
     exec sched s = Some s' ->
     is_Some (dataMap (cache s) !! k) -> is_Some (dataMap (cache s') !! k)) /\
  (forall c key now1 now2 k,
     let c' := snd (Get key now1 now2 c) in
     (is_Some (dataMap c !! k) -> is_Some (dataMap c' !! k)) /\
     (k <> key -> dataMap c' !! k = dataMap c !! k)) /\
  (forall c key (v : V) now k,
     let c' := snd (Put key v now c) in
     (is_Some (dataMap c !! k) -> is_Some (dataMap c' !! k)) /\
     (k <> key -> dataMap c' !! k = dataMap c !! k)).
Proof.
  assert (Hstep : forall a s s' k value,
     machine_step a s = Some s' ->
     dataMap (cache s) !! k = Some value ->
     dataMap (cache s') !! k = Some value \/
     exists i op m v,
       a = Step i /\ threads s !! i = Some (op, AtStore m v) /\
       call_key op = k /\
       dataMap (cache s') !! k =
         Some (mkCacheValue v (clock s + cacheDuration (cache s)))).
  { intros a s s' k value Hstep Hk. destruct a as [i|dt]; simpl in Hstep.
    2: { injection Hstep as <-. by left. }
    destruct (threads s !! i) as [[op p]|] eqn:Hi; [|done].
    destruct (thread_step _ _ _ _) as [[p' c']|] eqn:Hs; [|done].
    injection Hstep as <-. simpl.
    apply thread_step_dataMap in Hs as [->|(m & v & -> & ->)]; [by left|].
    destruct (decide (call_key op = k)) as [<-|Hne].
    - right. exists i, op, m, v. by rewrite lookup_insert_eq.
    - left. by rewrite lookup_insert_ne. }
  split; [exact Hstep|]. split; [|split].
  - intros sched s s' k Hex Hk.
    apply (exec_invariant (fun s1 => is_Some (dataMap (cache s1) !! k)))
      with (sched := sched) (s := s); [|done|done].
    intros a s1 s2 [value Hv] Ha.
    destruct (Hstep a s1 s2 k value Ha Hv) as [Hk'|(? & ? & ? & ? & _ & _ & _ & Hk')];
      rewrite Hk'; eauto.
  - intros c key now1 now2 k c'.
    destruct (Get_dataMap c key now1 now2) as [Hd|[v Hd]]; fold c' in Hd;
      rewrite Hd; split; try done.
    + apply insert_keeps_entries.
    + intros Hne. by rewrite lookup_insert_ne.
  - intros c key v now k c'.
    destruct (Put_dataMap c key v now) as [Hd|Hd]; fold c' in Hd;
      rewrite Hd; split; try done.
    + apply insert_keeps_entries.
    + intros Hne. by rewrite lookup_insert_ne.
Qed.

(** ** Mutual exclusion on the lock of a key *)

Lemma same_key_step key a s s' :
  same_key key s -> machine_step a s = Some s' -> same_key key s'.
Proof.
  intros Hk Hstep. destruct a as [i|dt]; simpl in Hstep.
  2: { by injection Hstep as <-. }
  destruct (threads s !! i) as [[op p]|] eqn:Hi; [|done].
  destruct (thread_step _ _ _ _) as [[p' c']|] eqn:Hs; [|done].
  injection Hstep as <-. intros j opj pj Hj. simpl in Hj.
  moved Hj; eauto.
Qed.

Lemma critical_obtained p : in_critical p = true -> is_Some (obtained p).
Proof. destruct p; simpl; eauto; done. Qed.

(** While a goroutine can take the lock of the key, no goroutine is in the
    critical section. *)
Lemma free_lock_no_critical key s i op (m : nat) j opj p_j :
  same_key key s -> registry_inv s -> mutex_inv s ->
  threads s !! i = Some (op, AtAcquire m) ->
  mutexes (cache s) !! m = Some false ->
  threads s !! j = Some (opj, p_j) ->
  in_critical p_j = true -> False.
Proof.
  intros Hk Hreg Hmut Hi Hfree Hj Hc.
  destruct (critical_obtained _ Hc) as [mj Hoj].
  pose proof (obtained_registered s Hreg _ _ _ _ Hi eq_refl) as Hri.
  pose proof (obtained_registered s Hreg _ _ _ _ Hj Hoj) as Hrj.
  rewrite (Hk _ _ _ Hi) in Hri. rewrite (Hk _ _ _ Hj) in Hrj.
  rewrite Hri in Hrj. injection Hrj as <-.
  pose proof (critical_locked s Hmut _ _ _ _ Hj Hc Hoj) as Hheld.
  by rewrite Hfree in Hheld.
Qed.

Lemma mutex_inv_step key a s s' :
  same_key key s -> registry_inv s -> mutex_inv s ->
  machine_step a s = Some s' -> mutex_inv s'.
Proof.
  intros Hk Hreg Hmut Hstep.
  pose proof Hmut as [M1 M2].
  destruct a as [i|dt]; simpl in Hstep.
  2: { injection Hstep as <-. by constructor. }
  destruct (threads s !! i) as [[op p]|] eqn:Hi; [|done].
  destruct (thread_step _ _ _ _) as [[p' c']|] eqn:Hs; [|done].
  injection Hstep as <-.
  step_cases Hs.
  all: constructor; simpl; intros.
  all: all_moved; simpl in *; try done; eauto.
  all: simplify_eq; try done.
  all: try (exfalso; by eapply (free_lock_no_critical key s i)).
  all: try (apply list_lookup_insert_eq; by eapply lookup_lt_Some).
  - apply lookup_app_l_Some. eauto.
  - (* the goroutine that unlocks was the one in the critical section *)
    match goal with
    | Hj : threads s !! ?j = Some (_, ?q), Hc : in_critical ?q = true |- _ =>
        pose proof (M1 _ _ _ _ _ _ Hi Hj eq_refl Hc)
    end. done.
Qed.

(** ** The phases of a batch of [Get]s of one key *)

Lemma thread_step_static now op p c p' c' :
  thread_step now op p c = Some (p', c') ->
  loadingFunc c' = loadingFunc c /\ cacheDuration c' = cacheDuration c.
Proof. intros Hs. by step_cases Hs. Qed.

(** An entry that had to be loaded at [t0] has to be loaded at any later
    time. *)
Lemma must_load_later (entry : option (CacheValue V)) t0 now :
  must_load entry t0 = true -> t0 <= now -> must_load entry now = true.
Proof.
  destruct entry as [value|]; [|done]. simpl.
  rewrite !Expired_iff. lia.
Qed.

Lemma cold_step key c0 t0 (v : V) (w : W) i op p p' c' s :
  same_key key s -> mutex_inv s ->
  loadingFunc (cache s) = loadingFunc c0 ->
  t0 <= clock s ->
  must_load (dataMap c0 !! key) t0 = true ->
  loadingFunc c0 key (loaderWorld c0) = (Loaded v, w) ->
  cold c0 s ->
  threads s !! i = Some (op, p) ->
  thread_step (clock s) op p (cache s) = Some (p', c') ->
  let s' := mkMachine c' (clock s) (<[i := (op, p')]> (threads s)) in
  cold c0 s' \/ holding key c0 v w s'.
Proof.
  intros Hk [M1 M2] Hf Ht Hstale Hload (Hc1 & Hc2 & Hc3 & Hc4) Hi Hs s'.
  pose proof (Hk _ _ _ Hi) as ->.
  pose proof (Hc4 _ _ _ Hi) as Hp.
  pose proof (must_load_later _ _ _ Hstale Ht) as Hnow.
  rewrite <- Hc3 in Hnow.
  step_cases Hs; simpl in *; try done.
  all: try (left; unfold cold; simpl; repeat split; try done;
            intros j opj pj Hj; moved Hj; by eauto).
  all: try match goal with
           | Hd : dataMap _ !! _ = Some _ |- _ =>
               rewrite Hd in Hnow; simpl in Hnow; congruence
           end.
  all: match goal with
       | Hl : loadingFunc _ _ _ = _ |- _ =>
           rewrite Hf, Hc2, Hload in Hl; simplify_eq
       end.
  right. unfold holding; simpl. rewrite Hc1. repeat split; try done.
  - intros j opj pj Hj. moved Hj; [done|].
    pose proof (Hc4 _ _ _ Hj) as Hb.
    destruct pj; simpl in *; try done.
    by pose proof (M1 _ _ _ _ _ _ Hi Hj eq_refl eq_refl).
  - exists i, (CallGet key), keyLock.
    apply list_lookup_insert_eq. by eapply lookup_lt_Some.
Qed.

(** While a goroutine holds the loaded value, the others stay outside the
    critical section; its store opens the warm phase, with the deadline
    [clock + ttl]. *)
Lemma holding_step key c0 (v : V) (w : W) i op p p' c' s :
  same_key key s -> registry_inv s -> mutex_inv s ->
  holding key c0 v w s ->
  threads s !! i = Some (op, p) ->
  thread_step (clock s) op p (cache s) = Some (p', c') ->
  let s' := mkMachine c' (clock s) (<[i := (op, p')]> (threads s)) in
  match p with
  | AtStore _ _ =>
      warm key c0 v w (time_Add (clock s) (cacheDuration (cache s))) s'
  | _ => holding key c0 v w s'
  end.
Proof.
  intros Hk Hreg Hmut (Hw1 & Hw2 & Hw3 & j0 & op0 & m0 & Hj0) Hi Hs s'.
  pose proof Hmut as [M1 M2].
  pose proof (Hk _ _ _ Hi) as ->.
  pose proof (Hw3 _ _ _ Hi) as Hp.
  assert (Hcrit : in_critical p = true -> i = j0).
  { intros Hc. by apply (M1 _ _ _ _ _ _ Hi Hj0 Hc). }
  assert (Hkeep : (forall m x, p <> AtStore m x) ->
            exists j opj m,
              <[i := (CallGet key, p')]> (threads s) !! j =
                Some (opj, AtStore m v)).
  { intros Hne. exists j0, op0, m0. rewrite list_lookup_insert_ne; [done|].
    intros ->. rewrite Hi in Hj0. simplify_eq. by destruct (Hne m0 v). }
  subst s'. step_cases Hs; simpl in *; try done.
  all: try (exfalso; by eapply (free_lock_no_critical key s i)).
  all: try (pose proof (Hcrit eq_refl) as ->; rewrite Hi in Hj0;
            by simplify_eq).
  all: try (unfold holding; simpl; (split; [done|]); (split; [done|]);
            (split; [intros j opj pj Hj; moved Hj; by eauto|]);
            by apply Hkeep).
  unfold warm; simpl. split; [done|]. split; [done|]. split.
  - intros j opj pj Hj.
    destruct (decide (j = i)) as [->|Hne].
    + rewrite list_lookup_insert_eq in Hj by by eapply lookup_lt_Some.
      by simplify_eq.
    + rewrite list_lookup_insert_ne in Hj by done.
      pose proof (Hw3 _ _ _ Hj) as Hcj.
      destruct pj; simpl in *; try done.
      by pose proof (M1 _ _ _ _ _ _ Hi Hj eq_refl eq_refl).
  - eexists. split; [apply lookup_insert_eq|]. done.
Qed.

(** In the warm phase a test that is made in time finds the entry, and
    nothing else touches the loader or the value store. *)
Lemma warm_step key c0 (v : V) (w : W) d i op p p' c' s :
  same_key key s ->
  warm key c0 v w d s ->
  threads s !! i = Some (op, p) ->
  tested_in_time (Some d) (Step i) s = true ->
  thread_step (clock s) op p (cache s) = Some (p', c') ->
  warm key c0 v w d (mkMachine c' (clock s) (<[i := (op, p')]> (threads s))).
Proof.
  intros Hk (Hw1 & Hw2 & Hw3 & e & He & Hv & Hd) Hi Htest Hs.
  pose proof (Hk _ _ _ Hi) as ->.
  pose proof (Hw3 _ _ _ Hi) as Hp.
  simpl in Htest. rewrite Hi in Htest.
  step_cases Hs; simpl in *; try done.
  all: try match goal with
           | Hx : Expired _ _ = true |- _ =>
               apply Expired_iff in Hx; apply Z.leb_le in Htest; lia
           end.
  all: unfold warm; simpl; (split; [done|]); (split; [done|]).
  all: split; [intros j opj pj Hj; moved Hj; by eauto|].
  all: by exists e.
Qed.

Lemma flight_inv_step key c0 t0 (v : V) (w : W) deadline a s s' :
  must_load (dataMap c0 !! key) t0 = true ->
  loadingFunc c0 key (loaderWorld c0) = (Loaded v, w) ->
  flight_inv key c0 t0 v w deadline s ->
  tested_in_time deadline a s = true ->
  machine_step a s = Some s' ->
  flight_inv key c0 t0 v w (deadline_after deadline a s) s'.
Proof.
  intros Hstale Hload [Hf Httl Ht Hk Hreg Hmut Hph] Htest Hstep.
  pose proof (same_key_step _ _ _ _ Hk Hstep) as Hk'.
  pose proof (registry_inv_step _ _ _ Hreg Hstep) as Hreg'.
  pose proof (mutex_inv_step _ _ _ _ Hk Hreg Hmut Hstep) as Hmut'.
  pose proof (machine_step_clock _ _ _ Hstep) as Hclock.
  destruct a as [i|dt]; simpl in Hstep.
  2: { injection Hstep as <-. constructor; simpl in *; try done; lia. }
  destruct (threads s !! i) as [[op p]|] eqn:Hi; [|done].
  destruct (thread_step _ _ _ _) as [[p' c']|] eqn:Hs; [|done].
  injection Hstep as <-.
  destruct (thread_step_static _ _ _ _ _ _ Hs) as [Hf' Httl'].
  constructor; simpl; try done; try congruence.
  rewrite Hi. destruct deadline as [d|]; simpl in Hph.
  - pose proof Hph as (_ & _ & Hw3 & _). pose proof (Hw3 _ _ _ Hi) as Hp.
    pose proof (warm_step _ _ _ _ _ _ _ _ _ _ _ Hk Hph Hi Htest Hs) as Hw.
    by destruct p.
  - destruct Hph as [Hcold|Hhold].
    + pose proof Hcold as (_ & _ & _ & Hc4). pose proof (Hc4 _ _ _ Hi) as Hp.
      pose proof (cold_step _ _ _ _ _ _ _ _ _ _ _ Hk Hmut Hf Ht Hstale Hload
                    Hcold Hi Hs) as Hc.
      by destruct p.
    + pose proof (holding_step _ _ _ _ _ _ _ _ _ _ Hk Hreg Hmut Hhold Hi Hs)
        as Hh.
      destruct p; simpl; try by right. done.
Qed.

(** The machine at the start of a batch is in the cold phase. *)
Lemma concurrent_Gets_inv n key c t (v : V) (w : W) :
  uncontended c key = true ->
  flight_inv key c t v w None (concurrent_Gets n key c t).
Proof.
  intros Hu.
  assert (Hentry : forall i op p,
            replicate n (CallGet key, @AtEntry V E) !! i = Some (op, p) ->
            op = CallGet key /\ p = AtEntry).
  { intros i op p Hi. apply lookup_replicate in Hi as [Hi _]. by simplify_eq. }
  constructor; simpl; try done.
  - intros i op p Hi. by apply Hentry in Hi as [-> _].
  - apply starting_registry_inv. unfold starting. simpl.
    rewrite (uncontended_guard _ _ Hu). simpl.
    apply forallb_forall. intros x Hx.
    apply list_elem_of_In, elem_of_replicate in Hx as [-> _]. done.
  - constructor; simpl; intros;
      repeat match goal with
             | Hi : replicate _ _ !! _ = Some _ |- _ => apply Hentry in Hi as [-> ->]
             end; done.
  - left. unfold cold. simpl. repeat split; try done.
    intros i op p Hi. by apply Hentry in Hi as [_ ->].
Qed.

Lemma flight_inv_exec key c0 t0 (v : V) (w : W) sched deadline s s' :
  must_load (dataMap c0 !! key) t0 = true ->
  loadingFunc c0 key (loaderWorld c0) = (Loaded v, w) ->
  flight_inv key c0 t0 v w deadline s ->
  exec sched s = Some s' ->
  tests_in_time deadline sched s = true ->
  flight_inv key c0 t0 v w (deadline_of deadline sched s) s'.
Proof.
  intros Hstale Hload. revert deadline s.
  induction sched as [|a sched IH]; intros deadline s Hinv Hex Htests;
    simpl in *.
  - by injection Hex as <-.
  - destruct (machine_step a s) as [s1|] eqn:Ha; [|done].
    apply andb_true_iff in Htests as [Htest Htests].
    eapply IH; [|done|done]. by eapply flight_inv_step.
Qed.

Lemma exec_threads_length sched s s' :
  exec sched s = Some s' -> length (threads s') = length (threads s).
Proof.
  revert s. induction sched as [|a sched IH]; intros s Hex; simpl in Hex.
  - by injection Hex as <-.
  - destruct (machine_step a s) as [s1|] eqn:Ha; [|done].
    rewrite (IH _ Hex). destruct a as [i|dt]; simpl in Ha.
    + destruct (threads s !! i) as [[op p]|]; [|done].
      destruct (thread_step _ _ _ _) as [[p' c']|]; [|done].
      injection Ha as <-. simpl. apply length_insert.
    + by injection Ha as <-.
Qed.


(** ** No machine is stuck *)

(** A goroutine with the property [P] is still there after goroutine [i]
    moved, when the move keeps [P]. *)
Lemma owner_moves (P : pc V E -> bool) (ts : list (call K V * pc V E)) i op p p' :
  ts !! i = Some (op, p) ->
  (P p = true -> P p' = true) ->
  (exists j opj pj, ts !! j = Some (opj, pj) /\ P pj = true) ->
  exists j opj pj, <[i:=(op, p')]> ts !! j = Some (opj, pj) /\ P pj = true.
Proof.
  intros Hi Hkeep (j & opj & pj & Hj & HP).
  destruct (decide (j = i)) as [->|Hne].
  - exists i, op, p'. rewrite list_lookup_insert_eq by by eapply lookup_lt_Some.
    split; [done|]. apply Hkeep. by simplify_eq.
  - exists j, opj, pj. by rewrite list_lookup_insert_ne.
Qed.

Lemma owner_new (P : pc V E -> bool) (ts : list (call K V * pc V E)) i op p p' :
  ts !! i = Some (op, p) -> P p' = true ->
  exists j opj pj, <[i:=(op, p')]> ts !! j = Some (opj, pj) /\ P pj = true.
Proof.
  intros Hi HP. exists i, op, p'.
  by rewrite list_lookup_insert_eq by by eapply lookup_lt_Some.
Qed.

Lemma live_inv_step key a s s' :
  same_key key s -> registry_inv s -> mutex_inv s -> live_inv key s ->
  machine_step a s = Some s' -> live_inv key s'.
Proof.
  intros Hk Hreg Hmut [L1 L2 L3 L4] Hstep.
  pose proof Hreg as [G1 G2 G3 G4]. pose proof Hmut as [M1 M2].
  destruct a as [i|dt]; simpl in Hstep.
  2: { injection Hstep as <-. by constructor. }
  destruct (threads s !! i) as [[op p]|] eqn:Hi; [|done].
  destruct (thread_step _ _ _ _) as [[p' c']|] eqn:Hs; [|done].
  injection Hstep as <-.
  pose proof (Hk _ _ _ Hi) as ->.
  assert (Hreg_i : forall m, obtained p = Some m ->
                     lockMap (cache s) !! key = Some m).
  { intros m Ho. by apply (G4 _ _ _ _ Hi Ho). }
  assert (Hnone_i : creating p = true -> lockMap (cache s) !! key = None).
  { intros Hc. by apply (G3 _ _ _ Hi Hc). }
  assert (Hinsert : forall j opj m, threads s !! j = Some (opj, AtInsert m) ->
            lockMap (cache s) !! key = None /\
            (in_guard p = true -> j = i)).
  { intros j opj m Hj. split.
    - rewrite <- (G3 _ _ _ Hj eq_refl). by rewrite (Hk _ _ _ Hj).
    - intros Hg. symmetry. by eapply (G1 _ _ _ _ _ _ Hi Hj Hg). }
  step_cases Hs; simpl in *.
  all: constructor; simpl.
  (* the guard and its owner *)
  all: try (intros Hg; first
         [ discriminate Hg
         | by (eapply owner_new; [done|])
         | by (eapply owner_moves; [done| |by apply L1]) ]).
  (* the lock of the key is a mutex *)
  all: try (intros m Hm;
            rewrite ?lookup_insert_eq in Hm; simplify_eq;
            first [ by apply L2
                  | apply list_lookup_insert_is_Some; by apply L2
                  | by rewrite (L4 _ _ _ Hi)
                  | rewrite Hnone_i in Hm; done ]).
  (* a mutex that is created and not stored yet *)
  all: try (intros j opj m Hj; moved Hj;
            first [ by apply list_lookup_middle
                  | by eapply L4
                  | destruct (Hinsert _ _ _ Hj) as [Hnone Hsame];
                    first [ by destruct (Hsame eq_refl)
                          | by rewrite (Hreg_i _ eq_refl) in Hnone ] ]).
  (* the lock of the key and its owner *)
  all: intros m Hm Hheld.
  all: try by (eapply owner_moves; [done| |apply (L3 m); [congruence|done]]).
  all: try by (eapply owner_new; [done|]).
  (* the goroutine that unlocks leaves the lock of the key free *)
  pose proof (Hreg_i _ eq_refl) as Hlock. rewrite Hlock in Hm.
  injection Hm as <-.
  pose proof (M2 _ _ _ _ Hi eq_refl eq_refl) as Hmine.
  rewrite list_lookup_insert_eq in Hheld by by eapply lookup_lt_Some.
  discriminate Hheld.
Qed.

Lemma concurrent_Gets_live n key c t :
  uncontended c key = true -> live_inv key (concurrent_Gets n key c t).
Proof.
  intros Hu. constructor; simpl.
  - intros Hg. by rewrite (uncontended_guard _ _ Hu) in Hg.
  - intros m Hm. rewrite (uncontended_lock _ _ _ Hu Hm). eauto.
  - intros m Hm Hheld. by rewrite (uncontended_lock _ _ _ Hu Hm) in Hheld.
  - intros i op m Hi. apply lookup_replicate in Hi as [Hi _]. by simplify_eq.
Qed.

(** A statement that does not wait for a mutex can always run. *)
Lemma thread_step_enabled now op p c :
  match p with
  | AtEntry | AtAcquire _ | Finished _ => True
  | _ => is_Some (thread_step now op p c)
  end.
Proof.
  destruct p; simpl; try done; unfold call_loader, new_Mutex;
    repeat case_match; eauto.
Qed.

Lemma guard_step_enabled now op p c :
  in_guard p = true -> is_Some (thread_step now op p c).
Proof.
  intros Hg. pose proof (thread_step_enabled now op p c). by destruct p.
Qed.

Lemma critical_step_enabled now op p c :
  in_critical p = true -> is_Some (thread_step now op p c).
Proof.
  intros Hg. pose proof (thread_step_enabled now op p c). by destruct p.
Qed.

Lemma machine_step_enabled s i op p :
  threads s !! i = Some (op, p) ->
  is_Some (thread_step (clock s) op p (cache s)) ->
  is_Some (machine_step (Step i) s).
Proof.
  intros Hi [[p' c'] Hs]. simpl. rewrite Hi, Hs. eauto.
Qed.

(** Progress: a machine with a goroutine that has not finished has a
    goroutine that can run its next statement. *)
Lemma progress key s i op p :
  same_key key s -> registry_inv s -> live_inv key s ->
  threads s !! i = Some (op, p) -> finished (op, p) = false ->
  exists j, is_Some (machine_step (Step j) s).
Proof.
  intros Hk [G1 G2 G3 G4] [L1 L2 L3 L4] Hi Hfin.
  pose proof (thread_step_enabled (clock s) op p (cache s)) as Hen.
  destruct p; simpl in *; try done;
    try (exists i; by eapply machine_step_enabled).
  - (* waiting for the guard *)
    destruct (lockMapLock (cache s)) eqn:Hg.
    + destruct (L1 eq_refl) as (j & opj & pj & Hj & Hgj). exists j.
      eapply machine_step_enabled; [done|]. by apply guard_step_enabled.
    + exists i. eapply machine_step_enabled; [done|]. simpl.
      unfold guard_Lock. rewrite Hg. eauto.
  - (* waiting for the lock of the key *)
    pose proof (G4 _ _ _ _ Hi eq_refl) as Hreg.
    rewrite (Hk _ _ _ Hi) in Hreg. simpl in Hreg.
    destruct (L2 _ Hreg) as [[|] Hb].
    + destruct (L3 _ Hreg Hb) as (j & opj & pj & Hj & Hcj). exists j.
      eapply machine_step_enabled; [done|]. by apply critical_step_enabled.
    + exists i. eapply machine_step_enabled; [done|]. simpl.
      unfold Mutex_Lock. rewrite Hb. destruct op; eauto.
Qed.

(** Every statement brings its goroutine closer to the end of its call. *)
Lemma thread_step_remaining now op p c p' c' :
  thread_step now op p c = Some (p', c') -> (remaining p' < remaining p)%nat.
Proof. intros Hs. step_cases Hs; simpl; lia. Qed.

Lemma sum_list_with_insert {A} (f : A -> nat) (l : list A) i x y :
  l !! i = Some x ->
  (sum_list_with f (<[i:=y]> l) + f x = sum_list_with f l + f y)%nat.
Proof.
  revert i. induction l as [|a l IH]; intros [|i] Hi; simpl in *; try done.
  - injection Hi as ->. lia.
  - specialize (IH i Hi). lia.
Qed.

Lemma work_step i s s' :
  machine_step (Step i) s = Some s' ->
  (work s' < work s)%nat /\ clock s' = clock s.
Proof.
  simpl. intros Hstep.
  destruct (threads s !! i) as [[op p]|] eqn:Hi; [|done].
  destruct (thread_step _ _ _ _) as [[p' c']|] eqn:Hs; [|done].
  injection Hstep as <-. split; [|done]. unfold work. simpl.
  pose proof (thread_step_remaining _ _ _ _ _ _ Hs) as Hlt.
  pose proof (sum_list_with_insert (fun t => remaining (snd t))
                (threads s) i (op, p) (op, p') Hi) as Hsum.
  simpl in Hsum. lia.
Qed.

Lemma forallb_false_lookup {A} (f : A -> bool) (l : list A) :
  forallb f l = false -> exists i x, l !! i = Some x /\ f x = false.
Proof.
  induction l as [|a l IH]; simpl; [done|].
  destruct (f a) eqn:Ha; simpl.
  - intros Hl. destruct (IH Hl) as (i & x & Hi & Hx). by exists (S i), x.
  - intros _. by exists 0%nat, a.
Qed.

(** From every machine that satisfies the invariants the calls can all be
    brought to their end, without a tick of the clock. *)
Lemma completes key (n : nat) s :
  (work s <= n)%nat ->
  same_key key s -> registry_inv s -> mutex_inv s -> live_inv key s ->
  exists sched s',
    exec sched s = Some s' /\ all_finished s' = true /\ clock s' = clock s.
Proof.
  revert s. induction n as [|n IH]; intros s Hwork Hk Hreg Hmut Hlive.
  all: destruct (all_finished s) eqn:Hfin; [by exists [], s|].
  all: apply forallb_false_lookup in Hfin as (i & [op p] & Hi & Hp).
  all: destruct (progress key s i op p Hk Hreg Hlive Hi Hp) as (j & s1 & Hj).
  all: destruct (work_step _ _ _ Hj) as [Hlt Hclock].
  - lia.
  - destruct (IH s1) as (sched & s' & Hex & Hdone & Hc).
    + lia.
    + by eapply same_key_step.
    + by eapply registry_inv_step.
    + by eapply mutex_inv_step.
    + by eapply live_inv_step.
    + exists (Step j :: sched), s'. cbn [exec]. rewrite Hj.
      split; [done|]. split; [done|]. congruence.
Qed.

Lemma live_inv_exec key sched s s' :
  same_key key s -> registry_inv s -> mutex_inv s -> live_inv key s ->
  exec sched s = Some s' ->
  same_key key s' /\ registry_inv s' /\ mutex_inv s' /\ live_inv key s'.
Proof.
  intros Hk Hreg Hmut Hlive Hex.
  apply (exec_invariant
           (fun s1 => same_key key s1 /\ registry_inv s1 /\
                      mutex_inv s1 /\ live_inv key s1))
    with (sched := sched) (s := s); [|done|done].
  intros a s1 s2 (Hk1 & Hreg1 & Hmut1 & Hlive1) Hstep.
  split; [by eapply same_key_step|].
  split; [by eapply registry_inv_step|].
  split; [by eapply mutex_inv_step|by eapply live_inv_step].
Qed.

(** ** Tests in time and tests that come late *)

Lemma tests_in_time_app deadline sched1 sched2 s s1 :
  exec sched1 s = Some s1 ->
  tests_in_time deadline (sched1 ++ sched2) s =
  tests_in_time deadline sched1 s &&
  tests_in_time (deadline_of deadline sched1 s) sched2 s1.
Proof.
  revert deadline s. induction sched1 as [|a sched1 IH];
    intros deadline s Hex; simpl in *.
  - by injection Hex as <-.
  - destruct (machine_step a s) as [s'|] eqn:Ha; [|done].
    by rewrite (IH _ _ Hex), andb_assoc.
Qed.

Lemma machine_step_ttl a s s' :
  machine_step a s = Some s' ->
  cacheDuration (cache s') = cacheDuration (cache s).
Proof.
  intros Hstep. destruct a as [i|dt]; simpl in Hstep.
  2: { by injection Hstep as <-. }
  destruct (threads s !! i) as [[op p]|] eqn:Hi; [|done].
  destruct (thread_step _ _ _ _) as [[p' c']|] eqn:Hs; [|done].
  injection Hstep as <-. simpl.
  by destruct (thread_step_static _ _ _ _ _ _ Hs).
Qed.

(** While the clock stands still at or before the deadline and the TTL is
    not negative, every test is made in time. *)
Lemma standing_clock_in_time sched deadline s s' :
  0 <= cacheDuration (cache s) ->
  exec sched s = Some s' -> clock s' = clock s ->
  (forall d, deadline = Some d -> clock s <= d) ->
  tests_in_time deadline sched s = true.
Proof.
  revert deadline s. induction sched as [|a sched IH];
    intros deadline s Httl Hex Hclock Hd; simpl in *; [done|].
  destruct (machine_step a s) as [s1|] eqn:Ha; [|done].
  pose proof (machine_step_clock _ _ _ Ha) as H1.
  pose proof (exec_clock _ _ _ Hex) as H2.
  pose proof (machine_step_ttl _ _ _ Ha) as H3.
  apply andb_true_iff. split.
  - destruct a as [i|dt], deadline as [d|]; simpl; try done.
    destruct (threads s !! i) as [[op []]|]; try done.
    apply Z.leb_le. by apply Hd.
  - apply IH; [by rewrite H3|done|lia|].
    intros d. destruct a as [i|dt]; simpl.
    2: { intros Hdd. pose proof (Hd _ Hdd). lia. }
    destruct (threads s !! i) as [[op p]|];
      [|intros Hdd; pose proof (Hd _ Hdd); lia].
    destruct p; try (intros Hdd; pose proof (Hd _ Hdd); lia).
    intros [= <-]. unfold time_Add. lia.
Qed.

Lemma thread_step_loaderCalls now op p c p' c' :
  thread_step now op p c = Some (p', c') ->
  loaderCalls c' = loaderCalls c \/
  exists m, p = AtLoad m /\ loaderCalls c' = loaderCalls c ++ [call_key op].
Proof.
  intros Hs. step_cases Hs; simpl; eauto.
Qed.

(** A batch that loads again keeps doing so. *)
Lemma reloading_step c0 a s s' :
  reloading c0 s -> machine_step a s = Some s' -> reloading c0 s'.
Proof.
  intros Hre Hstep. destruct a as [i|dt]; simpl in Hstep.
  2: { by injection Hstep as <-. }
  destruct (threads s !! i) as [[op p]|] eqn:Hi; [|done].
  destruct (thread_step _ _ _ _) as [[p' c']|] eqn:Hs; [|done].
  injection Hstep as <-. unfold reloading in *. simpl.
  destruct (thread_step_loaderCalls _ _ _ _ _ _ Hs)
    as [Hsame|(m & -> & Hmore)].
  - rewrite Hsame. destruct Hre as [Hlen|[Hlen (j & opj & mj & Hj)]];
      [by left|].
    destruct (decide (j = i)) as [->|Hne].
    + rewrite Hi in Hj. simplify_eq. simpl in Hs.
      unfold call_loader in Hs. repeat case_match; simplify_eq;
        simpl in Hsame; apply (f_equal length) in Hsame;
        rewrite length_app in Hsame; simpl in Hsame; lia.
    + right. split; [done|]. exists j, opj, mj.
      by rewrite list_lookup_insert_ne.
  - rewrite Hmore, length_app. simpl. left.
    destruct Hre as [Hlen|[Hlen _]]; lia.
Qed.

(** A test that comes after the deadline makes its goroutine load. *)
Lemma late_test_reloads key c0 t0 (v : V) (w : W) d a s s' :
  flight_inv key c0 t0 v w (Some d) s ->
  tested_in_time (Some d) a s = false ->
  machine_step a s = Some s' ->
  reloading c0 s'.
Proof.
  intros [_ _ _ Hk _ _ Hph] Htest Hstep. simpl in Hph.
  destruct Hph as (Hw1 & _ & _ & e & He & _ & Hd).
  destruct a as [i|dt]; simpl in *; [|done].
  destruct (threads s !! i) as [[op p]|] eqn:Hi; [|done].
  pose proof (Hk _ _ _ Hi) as ->.
  destruct p; try done. apply Z.leb_gt in Htest.
  simpl in Hstep. rewrite He in Hstep.
  assert (Hexp : Expired e (clock s) = true) by (apply Expired_iff; lia).
  rewrite Hexp in Hstep. injection Hstep as <-.
  right. simpl. rewrite Hw1, length_app. simpl. split; [lia|].
  exists i, (CallGet key), keyLock.
  apply list_lookup_insert_eq. by eapply lookup_lt_Some.
Qed.

Lemma late_tests_reload key c0 t0 (v : V) (w : W) sched deadline s s' :
  must_load (dataMap c0 !! key) t0 = true ->
  loadingFunc c0 key (loaderWorld c0) = (Loaded v, w) ->
  flight_inv key c0 t0 v w deadline s ->
  exec sched s = Some s' ->
  tests_in_time deadline sched s = false ->
  reloading c0 s'.
Proof.
  intros Hstale Hload. revert deadline s.
  induction sched as [|a sched IH]; intros deadline s Hinv Hex Htests;
    simpl in *; [done|].
  destruct (machine_step a s) as [s1|] eqn:Ha; [|done].
  destruct (tested_in_time deadline a s) eqn:Htest; simpl in Htests.
  - eapply IH; [|done|done]. by eapply flight_inv_step.
  - assert (Hre : reloading c0 s1).
    { destruct deadline as [d|]; [by eapply late_test_reloads|].
      by destruct a. }
    eapply (exec_invariant (reloading c0)); [|exact Hre|exact Hex].
    intros a' s2 s3. apply reloading_step.
Qed.

(** What a batch has done while its tests were in time: one call of the
    loader at most, and once its calls have all ended exactly one, whose
    value they all returned. *)
Lemma single_flight_safe n key c t (v : V) (w : W) sched s :
  (0 < n)%nat ->
  uncontended c key = true ->
  must_load (dataMap c !! key) t = true ->
  loadingFunc c key (loaderWorld c) = (Loaded v, w) ->
  exec sched (concurrent_Gets n key c t) = Some s ->
  tests_in_time None sched (concurrent_Gets n key c t) = true ->
  (loaderCalls (cache s) = loaderCalls c \/
   loader_called_once key c (cache s)) /\
  (forall i op r,
     threads s !! i = Some (op, Finished r) -> r = GetReturned v) /\
  (all_finished s = true ->
     loader_called_once key c (cache s) /\
     loaderWorld (cache s) = w /\
     threads s = replicate n (CallGet key, Finished (GetReturned v))).
Proof.
  intros Hn Hu Hstale Hload Hex Htests.
  pose proof (concurrent_Gets_inv n key c t v w Hu) as Hinv.
  pose proof (flight_inv_exec _ _ _ _ _ _ _ _ _ Hstale Hload Hinv Hex Htests)
    as [_ _ _ Hk _ _ Hph].
  pose proof (exec_threads_length _ _ _ Hex) as Hlen. simpl in Hlen.
  rewrite length_replicate in Hlen.
  assert (Hphase :
            cold c s \/
            (loader_called_once key c (cache s) /\ loaderWorld (cache s) = w /\
             forall i op p, threads s !! i = Some (op, p) -> carries v p)).
  { destruct (deadline_of _ _ _) as [d|]; simpl in Hph.
    - destruct Hph as (Hw1 & Hw2 & Hw3 & _). right.
      split; [done|]. split; [done|]. intros i op p Hi.
      pose proof (Hw3 _ _ _ Hi). by destruct p.
    - destruct Hph as [Hcold|(Hw1 & Hw2 & Hw3 & _)]; [by left|by right]. }
  split; [|split].
  - destruct Hphase as [(Hc1 & _)|(Hw1 & _)]; [by left|by right].
  - intros i op r Hi. destruct Hphase as [(_ & _ & _ & Hc4)|(_ & _ & Hw3)].
    + by pose proof (Hc4 _ _ _ Hi).
    + by pose proof (Hw3 _ _ _ Hi).
  - intros Hfin.
    assert (Hdone : forall i op p, threads s !! i = Some (op, p) ->
                      exists r, p = Finished r).
    { intros i op p Hi. pose proof (forallb_lookup _ _ _ _ Hfin Hi) as Hp.
      unfold finished in Hp. simpl in Hp. destruct p; try done. eauto. }
    destruct Hphase as [(_ & _ & _ & Hc4)|(Hw1 & Hw2 & Hw3)].
    + destruct (lookup_lt_is_Some_2 (threads s) 0%nat) as [[op p] H0]; [lia|].
      destruct (Hdone _ _ _ H0) as [r ->].
      pose proof (Hc4 _ _ _ H0) as Hb. discriminate Hb.
    + split; [done|]. split; [done|].
      apply list_eq_same_length with (n := n);
        [by rewrite length_replicate|done|].
      intros i [op p] y Hi Hx Hy. apply lookup_replicate in Hy as [-> _].
      destruct (Hdone _ _ _ Hx) as [r ->].
      pose proof (Hk _ _ _ Hx) as ->. pose proof (Hw3 _ _ _ Hx) as Hr.
      simpl in Hr. by subst r.
Qed.

(** What a batch has done once a test came late: when its calls have all
    ended, the loader was called twice at least. *)
Lemma late_test_loads_again n key c t (v : V) (w : W) sched s :
  uncontended c key = true ->
  must_load (dataMap c !! key) t = true ->
  loadingFunc c key (loaderWorld c) = (Loaded v, w) ->
  exec sched (concurrent_Gets n key c t) = Some s ->
  tests_in_time None sched (concurrent_Gets n key c t) = false ->
  all_finished s = true ->
  (length (loaderCalls c) + 2 <= length (loaderCalls (cache s)))%nat.
Proof.
  intros Hu Hstale Hload Hex Htests Hfin.
  pose proof (concurrent_Gets_inv n key c t v w Hu) as Hinv.
  destruct (late_tests_reload _ _ _ _ _ _ _ _ _ Hstale Hload Hinv Hex Htests)
    as [Hlen|[_ (i & op & m & Hi)]]; [done|].
  by pose proof (forallb_lookup _ _ _ _ Hfin Hi).
Qed.

(** C1, as the code has it: [n] goroutines call [Get] of a key that has no
    entry or an expired one, at time [t], and the loader returns normally.
    The first store gives the entry the expiration [clock + ttl], and the
    callers that waited test the entry against the clock they read when they
    get the lock.  Whatever the schedule and however long the loader takes:
    once all the calls have ended, the loader was called exactly once if and
    only if every test that followed a store read a clock not later than
    that store's clock plus the TTL, and it was called twice at least
    otherwise; as long as the tests are in time the loader was called once
    at most and every call that has ended returned the value of that call,
    so that in the end every caller has it; and the calls can always be
    brought to their end, with one call of the loader and its value for
    every caller when the TTL is not negative and the clock stands at or
    before the deadline of the store. *)
Theorem single_flight n key c t (v : V) (w : W) sched s :
  (0 < n)%nat ->
  uncontended c key = true ->
  must_load (dataMap c !! key) t = true ->
  loadingFunc c key (loaderWorld c) = (Loaded v, w) ->
  exec sched (concurrent_Gets n key c t) = Some s ->
  (all_finished s = true ->
     (loader_called_once key c (cache s) <->
      tests_in_time None sched (concurrent_Gets n key c t) = true) /\
     (tests_in_time None sched (concurrent_Gets n key c t) = false ->
      (length (loaderCalls c) + 2 <= length (loaderCalls (cache s)))%nat)) /\
  (tests_in_time None sched (concurrent_Gets n key c t) = true ->
     (loaderCalls (cache s) = loaderCalls c \/
      loader_called_once key c (cache s)) /\
     (forall i op r,
        threads s !! i = Some (op, Finished r) -> r = GetReturned v) /\
     (all_finished s = true ->
        loader_called_once key c (cache s) /\
        loaderWorld (cache s) = w /\
        threads s = replicate n (CallGet key, Finished (GetReturned v)))) /\
  (exists sched' s',
     exec sched' s = Some s' /\
     all_finished s' = true /\
     clock s' = clock s /\
     (tests_in_time None sched (concurrent_Gets n key c t) = true ->
      0 <= cacheDuration c ->
      (forall d, deadline_of None sched (concurrent_Gets n key c t) = Some d ->
                 clock s <= d) ->
      loader_called_once key c (cache s') /\
      loaderWorld (cache s') = w /\
      threads s' = replicate n (CallGet key, Finished (GetReturned v)))).
Proof.
  intros Hn Hu Hstale Hload Hex. split; [|split].
  - intros Hfin.
    assert (Hlate : tests_in_time None sched (concurrent_Gets n key c t) = false ->
              (length (loaderCalls c) + 2 <= length (loaderCalls (cache s)))%nat).
    { intros Htests. by eapply late_test_loads_again. }
    split; [|done]. split.
    + intros Honce.
      destruct (tests_in_time None sched _) eqn:Htests; [done|].
      specialize (Hlate eq_refl). unfold loader_called_once in Honce.
      rewrite Honce, length_app in Hlate. simpl in Hlate. lia.
    + intros Htests.
      by destruct (single_flight_safe n key c t v w sched s Hn Hu Hstale Hload
                     Hex Htests) as (_ & _ & Hend); apply Hend.
  - intros Htests. by eapply single_flight_safe.
  - pose proof (concurrent_Gets_inv n key c t v w Hu)
      as [_ Httl _ Hk Hreg Hmut _].
    pose proof (concurrent_Gets_live n key c t Hu) as Hlive.
    destruct (live_inv_exec _ _ _ _ Hk Hreg Hmut Hlive Hex)
      as (Hk' & Hreg' & Hmut' & Hlive').
    destruct (completes key (work s) s (le_n _) Hk' Hreg' Hmut' Hlive')
      as (sched' & s' & Hex' & Hfin & Hclock).
    exists sched', s'. split; [done|]. split; [done|]. split; [done|].
    intros Htests Hpos Hdeadline.
    assert (Hex2 : exec (sched ++ sched') (concurrent_Gets n key c t) = Some s')
      by by rewrite exec_app, Hex.
    assert (Hkeep : cacheDuration (cache s) = cacheDuration c).
    { apply (exec_invariant (fun s1 => cacheDuration (cache s1) = cacheDuration c))
        with (sched := sched) (s := concurrent_Gets n key c t);
        [|done|done].
      intros a s1 s2 H1 Ha. by rewrite (machine_step_ttl _ _ _ Ha). }
    assert (Htests2 : tests_in_time None (sched ++ sched')
                        (concurrent_Gets n key c t) = true).
    { rewrite (tests_in_time_app _ _ _ _ _ Hex), Htests. simpl.
      apply (standing_clock_in_time _ _ _ s'); try done. by rewrite Hkeep. }
    destruct (single_flight_safe n key c t v w _ s' Hn Hu Hstale Hload
                Hex2 Htests2) as (_ & _ & Hend).
    by apply Hend.
Qed.

Lemma unlock_after_lock (h : list bool) (m : nat) :
  h !! m = Some false -> <[m:=false]> (<[m:=true]> h) = h.
Proof.
  intros Hm. rewrite list_insert_insert_eq. by apply list_insert_id.
Qed.

(** ** The two layers agree

    A whole call of [Get] on an uncontended key is a run of the machine with
    one goroutine: the goroutine ends with the reply of the call and leaves
    the cache of the call. *)
Lemma Get_on_machine c key t0 now1 now2 :
  uncontended c key = true -> t0 <= now1 -> now1 <= now2 ->
  exists sched s' rep,
    exec sched (concurrent_Gets 1 key c t0) = Some s' /\
    Get_reply (fst (Get key now1 now2 c)) = Some rep /\
    threads s' = [(CallGet key, Finished rep)] /\
    cache s' = snd (Get key now1 now2 c).
Proof.
  intros Hu H1 H2.
  pose proof (Get_uncontended c key now1 now2 Hu) as HG.
  pose proof (uncontended_guard _ _ Hu) as Hg.
  pose proof (fun m => uncontended_lock c key m Hu) as Hm.
  assert (Hn1 : t0 + Z.of_N (Z.to_N (now1 - t0)) = now1) by (rewrite Z2N.id; lia).
  assert (Hn2 : now1 + Z.of_N (Z.to_N (now2 - now1)) = now2) by (rewrite Z2N.id; lia).
  unfold load_and_store, bind, act, call_loader, modify, ret, panic, registered in HG.
  destruct c as [d l g f ttl h w tr]. simpl in *. subst g.
  pose proof (list_lookup_middle h [] false (length h) eq_refl) as Hnew.
  pose proof (unlock_after_lock _ _ Hnew) as Hnew'.
  set (tick1 := Tick (Z.to_N (now1 - t0))).
  set (tick2 := Tick (Z.to_N (now2 - now1))).
  destruct (l !! key) as [m|] eqn:Hl;
    [specialize (Hm m eq_refl); pose proof (unlock_after_lock _ _ Hm) as Hm'|];
    (destruct (d !! key) as [value|] eqn:Hd;
       [destruct (Expired value now1) eqn:He|]);
    simpl in HG; try destruct (f key w) as [[v|e] w'] eqn:Hf; rewrite HG; simpl;
    match goal with
       | _ : l !! key = Some _, _ : Expired _ now1 = false |- _ =>
           exists ([tick1] ++ replicate 6 (Step 0))
       | _ : l !! key = None, _ : Expired _ now1 = false |- _ =>
           exists ([tick1] ++ replicate 8 (Step 0))
       | _ : l !! key = Some _, _ : f key w = (Loaded _, _) |- _ =>
           exists ([tick1] ++ replicate 6 (Step 0) ++ [tick2] ++ replicate 2 (Step 0))
       | _ : l !! key = Some _, _ : f key w = (Panics _, _) |- _ =>
           exists ([tick1] ++ replicate 7 (Step 0))
       | _ : l !! key = None, _ : f key w = (Loaded _, _) |- _ =>
           exists ([tick1] ++ replicate 8 (Step 0) ++ [tick2] ++ replicate 2 (Step 0))
       | _ : l !! key = None, _ : f key w = (Panics _, _) |- _ =>
           exists ([tick1] ++ replicate 9 (Step 0))
       end.
  all: eexists; eexists; split;
    [ repeat (simpl; unfold Mutex_Lock, call_loader; simpl;
              rewrite ?Hl, ?Hm, ?Hnew, ?Hd, ?Hn1, ?Hn2, ?He, ?Hf,
                ?lookup_insert_eq); reflexivity
    | split; [reflexivity|split; [reflexivity|]] ].
  all: simpl; unfold Mutex_Unlock, dataMap_store, set_loader, set_mutexes,
         set_dataMap, lockMap_store, set_lockMap; simpl;
       rewrite ?Hm', ?Hnew'; reflexivity.
Qed.

(** The same for [Put]. *)
Lemma Put_on_machine c key (v : V) t0 now :
  uncontended c key = true -> t0 <= now ->
  exists sched s',
    exec sched (mkMachine c t0 [(CallPut key v, AtEntry)]) = Some s' /\
    fst (Put key v now c) = Return tt /\
    threads s' = [(CallPut key v, Finished PutReturned)] /\
    cache s' = snd (Put key v now c).
Proof.
  intros Hu H1.
  pose proof (Put_uncontended c key v now Hu) as HP.
  pose proof (uncontended_guard _ _ Hu) as Hg.
  pose proof (fun m => uncontended_lock c key m Hu) as Hm.
  assert (Hn1 : t0 + Z.of_N (Z.to_N (now - t0)) = now) by (rewrite Z2N.id; lia).
  unfold registered in HP.
  destruct c as [d l g f ttl h w tr]. simpl in *. subst g.
  pose proof (list_lookup_middle h [] false (length h) eq_refl) as Hnew.
  pose proof (unlock_after_lock _ _ Hnew) as Hnew'.
  set (tick1 := Tick (Z.to_N (now - t0))).
  destruct (l !! key) as [m|] eqn:Hl;
    [specialize (Hm m eq_refl); pose proof (unlock_after_lock _ _ Hm) as Hm'|];
    rewrite HP; simpl;
    match goal with
    | _ : l !! key = Some _ |- _ => exists ([tick1] ++ replicate 6 (Step 0))
    | _ : l !! key = None |- _ => exists ([tick1] ++ replicate 8 (Step 0))
    end.
  all: eexists; split;
    [ repeat (simpl; unfold Mutex_Lock; simpl;
              rewrite ?Hl, ?Hm, ?Hnew, ?Hn1, ?lookup_insert_eq); reflexivity
    | split; [reflexivity|split; [reflexivity|]] ].
  all: simpl; unfold Mutex_Unlock, dataMap_store, set_mutexes,
         set_dataMap, lockMap_store, set_lockMap; simpl;
       rewrite ?Hm', ?Hnew'; reflexivity.
Qed.

(** ** Calls that follow one another *)

Lemma registered_has_lock c key : is_Some (lockMap (registered key c) !! key).
Proof.
  unfold registered. destruct (lockMap c !! key) eqn:Hc; [by rewrite Hc|].
  simpl. rewrite lookup_insert_eq. eauto.
Qed.

Lemma registered_idle c key : idle c -> idle (registered key c).
Proof.
  intros Hidle key'. pose proof (Hidle key') as Hu. unfold registered.
  destruct (lockMap c !! key) as [m|] eqn:Hm; [done|].
  unfold uncontended in *. simpl.
  apply andb_prop in Hu as [-> Hk]. simpl.
  destruct (decide (key = key')) as [<-|Hne].
  - rewrite lookup_insert_eq. apply bool_decide_eq_true.
    by apply list_lookup_middle.
  - rewrite lookup_insert_ne by done.
    destruct (lockMap c !! key') as [m'|]; [|done].
    apply bool_decide_eq_true in Hk. apply bool_decide_eq_true.
    by apply lookup_app_l_Some.
Qed.

(** What a call on an idle cache leaves: the registered cache, with a new
    entry for the key or not, and the loader called or not. *)
Lemma Get_idle c key now1 now2 :
  idle c ->
  is_Some (Get_reply (fst (Get key now1 now2 c))) /\
  idle (snd (Get key now1 now2 c)).
Proof.
  intros Hidle. rewrite Get_uncontended by apply Hidle.
  pose proof (registered_idle c key Hidle) as Hreg.
  assert (Hload : is_Some (Get_reply (fst (load_and_store key now2 (registered key c)))) /\
                  idle (snd (load_and_store key now2 (registered key c)))).
  { unfold load_and_store, bind, act, call_loader, modify, ret, panic.
    destruct (loadingFunc _ _ _) as [[v|e] w]; simpl; split; eauto;
      intros key'; apply (Hreg key'). }
  destruct (dataMap c !! key) as [value|]; [destruct (Expired value now1)|];
    try done; simpl; eauto.
Qed.

Lemma Put_idle c key (v : V) now :
  idle c ->
  fst (Put key v now c) = Return tt /\ idle (snd (Put key v now c)).
Proof.
  intros Hidle. rewrite Put_uncontended by apply Hidle. split; [done|].
  intros key'. apply (registered_idle c key Hidle key').
Qed.

Lemma run_calls_idle calls c :
  idle c ->
  Forall is_Some (fst (run_calls calls c)) /\ idle (snd (run_calls calls c)).
Proof.
  revert c. induction calls as [|tc calls IH]; intros c Hidle; simpl.
  - by split.
  - destruct (run_call tc c) as [r c'] eqn:Hr.
    assert (is_Some r /\ idle c') as [Hsome Hidle'].
    { destruct tc as [key now1 now2|key v now]; simpl in Hr.
      - pose proof (Get_idle c key now1 now2 Hidle) as [H1 H2].
        destruct (Get key now1 now2 c). by simplify_eq.
      - pose proof (Put_idle c key v now Hidle) as [H1 H2].
        destruct (Put key v now c) as [r0 c0]. simpl in *. subst r0.
        simplify_eq. eauto. }
    destruct (IH c' Hidle') as [Hall Hfinal].
    destruct (run_calls calls c') as [rs c'']. simpl in *.
    split; [by constructor|done].
Qed.

Lemma NewLoadingCache_idle (f : K -> W -> loaded V E * W) ttl (w : W) :
  idle (NewLoadingCache f ttl w).
Proof. intros key. unfold uncontended. simpl. by rewrite lookup_empty. Qed.

(** X1: whatever calls of [Get] and [Put] one goroutine makes in a row on a
    new cache, with whatever clock readings and whether the loader returns
    or panics, no call waits for ever on a mutex, and when the calls are
    over no mutex of the cache is held. *)
Theorem sequential_calls_never_block
    (f : K -> W -> loaded V E * W) ttl (w : W) (calls : list (timed_call K V)) :
  Forall is_Some (fst (run_calls calls (NewLoadingCache f ttl w))) /\
  idle (snd (run_calls calls (NewLoadingCache f ttl w))).
Proof. apply run_calls_idle, NewLoadingCache_idle. Qed.

(** X2: the first [Get] of a key on a new cache calls the loader, whatever
    the clock.  When the loader returns, the cache holds one entry, the
    loaded value with the expiration [now2 + ttl], and one lock, for that
    key; when it panics, the cache holds the lock and no entry. *)
Theorem first_Get_loads
    (f : K -> W -> loaded V E * W) ttl (w : W) key now1 now2 :
  let '(r, c') := Get key now1 now2 (NewLoadingCache f ttl w) in
  loaderCalls c' = [key] /\
  loaderWorld c' = snd (f key w) /\
  lockMap c' = {[key := 0%nat]} /\
  mutexes c' = [false] /\
  lockMapLock c' = false /\
  match fst (f key w) with
  | Loaded v =>
      r = Return v /\ dataMap c' = {[key := mkCacheValue v (now2 + ttl)]}
  | Panics e => r = Panic e /\ dataMap c' = ∅
  end.
Proof.
  rewrite Get_uncontended by apply NewLoadingCache_idle.
  simpl. rewrite lookup_empty.
  unfold load_and_store, bind, act, call_loader, modify, ret, panic, registered.
  simpl. rewrite lookup_empty. simpl.
  destruct (f key w) as [[v|e] w']; simpl; repeat split; try done.
Qed.

(** X3: of two [Put]s of a key that follow one another the second one wins:
    the cache is the one the second [Put] alone would have left. *)
Theorem Put_Put c key (v1 v2 : V) t1 t2 :
  uncontended c key = true ->
  snd (Put key v2 t2 (snd (Put key v1 t1 c))) = snd (Put key v2 t2 c).
Proof.
  intros Hu. rewrite (Put_uncontended c key v1 t1 Hu). simpl.
  rewrite Put_uncontended.
  2: { rewrite uncontended_dataMap_store. by apply registered_uncontended. }
  rewrite (Put_uncontended c key v2 t2 Hu). simpl.
  assert (Hreg : registered key (dataMap_store key v1 t1 (registered key c)) =
                 dataMap_store key v1 t1 (registered key c)).
  { destruct (registered_has_lock c key) as [m Hm].
    unfold registered at 1. simpl. by rewrite Hm. }
  rewrite Hreg. unfold dataMap_store, set_dataMap. simpl.
  by rewrite insert_insert_eq.
Qed.

(** X4: the value [Get] returns is the value the store holds for the key
    when [Get] is over, and when [Get] did not call the loader that entry is
    not expired at the time of the test. *)
Theorem Get_returns_stored c key now1 now2 (v : V) c' :
  uncontended c key = true ->
  Get key now1 now2 c = (Return v, c') ->
  exists e,
    dataMap c' !! key = Some e /\ Value e = v /\
    (loaderCalls c' = loaderCalls c -> Expired e now1 = false).
Proof.
  intros Hu HG. rewrite Get_uncontended in HG by done.
  destruct (registered_frame c key) as (Hd & _ & _ & _ & Hc & _).
  assert (Hload : load_and_store key now2 (registered key c) = (Return v, c') ->
            exists e, dataMap c' !! key = Some e /\ Value e = v /\
              (loaderCalls c' = loaderCalls c -> Expired e now1 = false)).
  { unfold load_and_store, bind, act, call_loader, modify, ret, panic.
    destruct (loadingFunc _ _ _) as [[v'|e'] w']; simpl; [|done].
    intros [= <- <-]. eexists. split; [apply dataMap_store_lookup|].
    split; [done|]. simpl. rewrite Hc. intros Heq.
    apply (f_equal length) in Heq. rewrite length_app in Heq. simpl in Heq. lia. }
  destruct (dataMap c !! key) as [value|] eqn:Hv;
    [destruct (Expired value now1) eqn:He|]; try by apply Hload.
  injection HG as <- <-. exists value. by rewrite Hd.
Qed.

(** X5: with a negative [cacheDuration] nothing is ever served from the
    cache: an entry written at time [t], by [Put] or by a [Get] that loaded,
    is expired at every clock reading from [t] on, and the [Get] that finds
    it calls the loader. *)
Theorem negative_ttl_never_hits c key :
  cacheDuration c < 0 ->
  uncontended c key = true ->
  (forall (v : V) t now1 now2, t <= now1 ->
     loader_called_once key (snd (Put key v t c))
       (snd (Get key now1 now2 (snd (Put key v t c))))) /\
  (forall now0 t (v : V) c', 
     must_load (dataMap c !! key) now0 = true ->
     Get key now0 t c = (Return v, c') ->
     forall now1 now2, t <= now1 ->
       loader_called_once key c' (snd (Get key now1 now2 c'))).
Proof.
  intros Hneg Hu. split.
  - intros v t now1 now2 Hle. rewrite (Put_uncontended c key v t Hu). simpl.
    destruct (registered_frame c key) as (_ & _ & Ht & _).
    apply Get_calls_loader.
    + rewrite uncontended_dataMap_store. by apply registered_uncontended.
    + rewrite dataMap_store_lookup. simpl. apply Expired_iff. simpl. lia.
  - intros now0 t v c' Hm HG now1 now2 Hle.
    destruct (Get_loads_after c key now0 t v c' Hu Hm HG) as (Hu' & _ & Hd').
    apply Get_calls_loader; [done|]. rewrite Hd'. simpl.
    apply Expired_iff. simpl. lia.
Qed.

(** The value store and the loader under a whole call, from any cache. *)
Lemma Get_blocked_iff c key now1 now2 :
  fst (Get key now1 now2 c) = Blocked <-> uncontended c key = false.
Proof.
  destruct (uncontended c key) eqn:Hu.
  - split; [|done]. rewrite Get_uncontended by done.
    unfold load_and_store, bind, act, call_loader, modify, ret, panic.
    destruct (dataMap c !! key) as [value|]; [destruct (Expired value now1)|];
      simpl; try done; by destruct (loadingFunc _ _ _) as [[?|?] ?].
  - split; [done|]. intros _. unfold uncontended in Hu.
    destruct c as [d l g f ttl h w tr]. simpl in *.
    unfold Get, getKeyLockFromMap, bind, try, defer, gets, act, modify, ret,
      guard_Lock, Mutex_Lock, new_Mutex. simpl.
    destruct g; [done|]. simpl in *.
    destruct (l !! key) as [m|] eqn:Hl; simpl in *; [|done].
    apply bool_decide_eq_false in Hu.
    destruct (h !! m) as [[|]|] eqn:Hm; simpl; done.
Qed.

Lemma Put_blocked_iff c key (v : V) now :
  fst (Put key v now c) = Blocked <-> uncontended c key = false.
Proof.
  destruct (uncontended c key) eqn:Hu.
  - split; [|done]. by rewrite Put_uncontended by done.
  - split; [done|]. intros _. unfold uncontended in Hu.
    destruct c as [d l g f ttl h w tr]. simpl in *.
    unfold Put, getKeyLockFromMap, bind, try, defer, gets, act, modify, ret,
      guard_Lock, Mutex_Lock, new_Mutex. simpl.
    destruct g; [done|]. simpl in *.
    destruct (l !! key) as [m|] eqn:Hl; simpl in *; [|done].
    apply bool_decide_eq_false in Hu.
    destruct (h !! m) as [[|]|] eqn:Hm; simpl; done.
Qed.

(** X6: a call of [Get] or [Put] waits exactly when the registry guard or
    the lock of its key is held, and a call that waits has written nothing
    to the value store, has not called the loader, and has left the cache
    as it was, the registry guard included. *)
Theorem waiting_call_writes_nothing c key now1 now2 (v : V) :
  (fst (Get key now1 now2 c) = Blocked <-> uncontended c key = false) /\
  (fst (Put key v now1 c) = Blocked <-> uncontended c key = false) /\
  (uncontended c key = false ->
     snd (Get key now1 now2 c) = c /\ snd (Put key v now1 c) = c).
Proof.
  split; [apply Get_blocked_iff|]. split; [apply Put_blocked_iff|].
  intros Hu. unfold uncontended in Hu.
  destruct c as [d l g f ttl h w tr]. simpl in *.
  unfold Get, Put, getKeyLockFromMap, bind, try, defer, gets, act, modify, ret,
    guard_Lock, guard_Unlock, Mutex_Lock, new_Mutex. simpl.
  destruct g; [done|]. simpl in *.
  destruct (l !! key) as [m|] eqn:Hl; simpl in *; [|done].
  apply bool_decide_eq_false in Hu.
  destruct (h !! m) as [[|]|] eqn:Hm; simpl; done.
Qed.

(** ** Any calls on one cache *)

Lemma holder_moves (P : call K V -> pc V E -> Prop)
    (ts : list (call K V * pc V E)) i op p p' :
  ts !! i = Some (op, p) ->
  (P op p -> P op p') ->
  (exists j opj pj, ts !! j = Some (opj, pj) /\ P opj pj) ->
  exists j opj pj, <[i:=(op, p')]> ts !! j = Some (opj, pj) /\ P opj pj.
Proof.
  intros Hi Hkeep (j & opj & pj & Hj & HP).
  destruct (decide (j = i)) as [->|Hne].
  - exists i, op, p'. rewrite list_lookup_insert_eq by by eapply lookup_lt_Some.
    split; [done|]. apply Hkeep. by simplify_eq.
  - exists j, opj, pj. by rewrite list_lookup_insert_ne.
Qed.

Lemma pool_inv_step a s s' :
  pool_inv s -> machine_step a s = Some s' -> pool_inv s'.
Proof.
  intros [Hreg P1 P2 P3 P4 P5 P6 P7] Hstep.
  pose proof (registry_inv_step _ _ _ Hreg Hstep) as Hreg'.
  pose proof Hreg as [G1 G2 G3 G4].
  destruct a as [i|dt]; simpl in Hstep.
  2: { injection Hstep as <-. by constructor. }
  destruct (threads s !! i) as [[op p]|] eqn:Hi; [|done].
  destruct (thread_step _ _ _ _) as [[p' c']|] eqn:Hs; [|done].
  injection Hstep as <-.
  assert (Hreg_i : forall m, obtained p = Some m ->
                     lockMap (cache s) !! call_key op = Some m).
  { intros m Ho. by apply (G4 _ _ _ _ Hi Ho). }
  assert (Hsolo : in_guard p = true ->
            forall j opj m, threads s !! j = Some (opj, AtInsert m) -> j = i).
  { intros Hg j opj m Hj. symmetry. by eapply (G1 _ _ _ _ _ _ Hi Hj Hg). }
  assert (Hlock_lt : forall m b, mutexes (cache s) !! m = Some b ->
                       (m < length (mutexes (cache s)))%nat).
  { intros m b Hb. by eapply lookup_lt_Some. }
  assert (Hrival : in_critical p' = true ->
            forall j opj pj, threads s !! j = Some (opj, pj) -> j <> i ->
              call_key op = call_key opj -> in_critical pj = true -> False).
  { intros Hc' j opj pj Hj Hne Hkey Hc.
    destruct (in_critical p) eqn:Hcp.
    - by pose proof (P4 _ _ _ _ _ _ Hi Hj Hkey Hcp Hc).
    - destruct (critical_obtained _ Hc) as [mj Hoj].
      pose proof (G4 _ _ _ _ Hj Hoj) as Hrj. rewrite <- Hkey in Hrj.
      pose proof (P5 _ _ _ _ Hj Hc Hoj) as Hheld.
      step_cases Hs; simpl in *; try done.
      all: rewrite (Hreg_i _ eq_refl) in Hrj; simplify_eq. }
  constructor; [done|..]; clear Hreg'.
  - (* a lock of the registry is a mutex *)
    intros k m Hm. step_cases Hs; simpl in *.
    all: try by eapply P1.
    + destruct (P1 _ _ Hm) as [b Hb]. exists b. by apply lookup_app_l_Some.
    + apply lookup_insert_Some in Hm as [[<- <-]|[_ Hm]]; [|by eapply P1].
      destruct (P3 _ _ _ Hi) as [Hf _]. by rewrite Hf.
    + apply list_lookup_insert_is_Some. by eapply P1.
    + apply list_lookup_insert_is_Some. by eapply P1.
    + apply list_lookup_insert_is_Some. by eapply P1.
  - (* two keys never share a lock *)
    intros k1 k2 m Hm1 Hm2. step_cases Hs; simpl in *.
    all: try by eapply P2.
    destruct (P3 _ _ _ Hi) as [_ Hfresh].
    apply lookup_insert_Some in Hm1 as [[<- <-]|[? Hm1]];
      apply lookup_insert_Some in Hm2 as [[<- ?]|[? Hm2]]; subst; try done.
    + by destruct (Hfresh k2).
    + by destruct (Hfresh k1).
    + by eapply P2.
  - (* a mutex that is created and not stored yet *)
    intros j opj m Hj. simpl in Hj. moved Hj.
    + (* the goroutine that has just created it *)
      step_cases Hs; simpl in *. split; [by apply list_lookup_middle|].
      intros k Hk. destruct (P1 _ _ Hk) as [b Hb].
      apply Hlock_lt in Hb. lia.
    + destruct (P3 _ _ _ Hj) as [Hfree Hfresh].
      assert (Hother : forall m', obtained p = Some m' -> m <> m').
      { intros m' Ho ->. by destruct (Hfresh _ (Hreg_i _ Ho)). }
      step_cases Hs; simpl in *; try done.
      all: try (by pose proof (Hsolo eq_refl _ _ _ Hj)).
      all: split; [|done].
      all: rewrite list_lookup_insert_ne; [done|]; intros Heq;
        by destruct (Hother _ eq_refl).
  - (* one goroutine of a key at most in the critical section *)
    intros j1 j2 op1 p1 op2 p2 H1 H2 Hkey Hc1 Hc2. simpl in H1, H2.
    moved H1; moved H2; try done.
    + by destruct (Hrival Hc1 _ _ _ H2).
    + exfalso. by eapply (Hrival Hc2 _ _ _ H1).
    + by eapply P4.
  - (* the lock of a goroutine in the critical section is held *)
    intros j opj pj m Hj Hc Ho. simpl in Hj. moved Hj.
    + step_cases Hs; simpl in *; simplify_eq.
      all: try by apply (P5 _ _ _ _ Hi eq_refl eq_refl).
      all: apply list_lookup_insert_eq; by eapply Hlock_lt.
    + pose proof (P5 _ _ _ _ Hj Hc Ho) as Hheld.
      assert (Hdiff : in_critical p = true ->
                forall m', obtained p = Some m' -> m <> m').
      { intros Hcp m' Hm' ->.
        pose proof (P2 _ _ _ (Hreg_i _ Hm') (G4 _ _ _ _ Hj Ho)) as Hkey.
        by pose proof (P4 _ _ _ _ _ _ Hi Hj Hkey Hcp Hc). }
      step_cases Hs; simpl in *; try done.
      * by apply lookup_app_l_Some.
      * apply list_lookup_insert_Some.
        destruct (decide (keyLock = m)) as [->|]; [left|right]; eauto.
      * apply list_lookup_insert_Some.
        destruct (decide (keyLock = m)) as [->|]; [left|right]; eauto.
      * rewrite list_lookup_insert_ne; [done|]. intros Heq.
        by destruct (Hdiff eq_refl _ eq_refl).
  - (* a held lock has a goroutine of its key in the critical section *)
    intros k m Hm Hheld.
    assert (Hkeep : lockMap (cache s) !! k = Some m ->
              mutexes (cache s) !! m = Some true ->
              (in_critical p = true -> in_critical p' = true) ->
              exists j opj pj,
                <[i:=(op, p')]> (threads s) !! j = Some (opj, pj) /\
                call_key opj = k /\ in_critical pj = true).
    { intros Hm0 Hheld0 Hstay.
      eapply (holder_moves (fun o q => call_key o = k /\ in_critical q = true));
        [done| |by eapply P6].
      intros [? ?]. split; [done|by apply Hstay]. }
    step_cases Hs; simpl in *.
    all: try by apply Hkeep.
    + (* a mutex is created *)
      destruct (P1 _ _ Hm) as [b Hb].
      rewrite (lookup_app_l_Some _ _ _ _ Hb) in Hheld. simplify_eq.
      by apply Hkeep.
    + (* the new lock is stored *)
      destruct (P3 _ _ _ Hi) as [Hfree _].
      apply lookup_insert_Some in Hm as [[<- <-]|[_ Hm]]; [congruence|].
      by apply Hkeep.
    + (* Get takes the lock *)
      apply list_lookup_insert_Some in Hheld as [(<- & _ & _)|[_ Hheld]];
        [|by apply Hkeep].
      pose proof (P2 _ _ _ (Hreg_i _ eq_refl) Hm) as <-.
      exists i, (CallGet key), (AtRead keyLock).
      rewrite list_lookup_insert_eq by by eapply lookup_lt_Some. done.
    + (* Put takes the lock *)
      apply list_lookup_insert_Some in Hheld as [(<- & _ & _)|[_ Hheld]];
        [|by apply Hkeep].
      pose proof (P2 _ _ _ (Hreg_i _ eq_refl) Hm) as <-.
      exists i, (CallPut key value), (AtStore keyLock value).
      rewrite list_lookup_insert_eq by by eapply lookup_lt_Some. done.
    + (* the lock is released *)
      apply list_lookup_insert_Some in Hheld as [(_ & ? & _)|[Hne Hheld]];
        [done|].
      destruct (P6 _ _ Hm Hheld) as (j & opj & pj & Hj & Hk & Hc).
      exists j, opj, pj. split; [|done].
      rewrite list_lookup_insert_ne; [done|]. intros <-.
      simplify_eq. rewrite (Hreg_i _ eq_refl) in Hm. by simplify_eq.
  - (* a held guard has a goroutine inside *)
    intros Hg.
    assert (Hkeep : lockMapLock (cache s) = true ->
              (in_guard p = true -> in_guard p' = true) ->
              exists j opj pj,
                <[i:=(op, p')]> (threads s) !! j = Some (opj, pj) /\
                in_guard pj = true).
    { intros Hg0 Hstay.
      eapply (holder_moves (fun _ q => in_guard q = true)); [done|done|].
      by apply P7. }
    step_cases Hs; simpl in *; try done.
    all: try by apply Hkeep.
    exists i, op, AtLookup.
    by rewrite list_lookup_insert_eq by by eapply lookup_lt_Some.
Qed.

Lemma new_pool_inv (f : K -> W -> loaded V E * W) ttl (w : W) t ops :
  pool_inv (new_pool f ttl w t ops).
Proof.
  assert (Hentry : forall i op p,
            map (fun op => (op, @AtEntry V E)) ops !! i = Some (op, p) ->
            p = AtEntry).
  { intros i op p Hi. rewrite list_lookup_fmap in Hi.
    destruct (ops !! i); simpl in Hi; by simplify_eq. }
  constructor; simpl.
  - apply starting_registry_inv. unfold starting. simpl.
    apply forallb_forall. intros [op p] Hx.
    apply list_elem_of_In, list_elem_of_lookup in Hx as [i Hi].
    by rewrite (Hentry _ _ _ Hi).
  - intros k m Hm. by rewrite lookup_empty in Hm.
  - intros k1 k2 m Hm. by rewrite lookup_empty in Hm.
  - intros i op m Hi. by pose proof (Hentry _ _ _ Hi).
  - intros i j opi p_i opj p_j Hi Hj _ Hc. by rewrite (Hentry _ _ _ Hi) in Hc.
  - intros i op p m Hi Hc. by rewrite (Hentry _ _ _ Hi) in Hc.
  - intros k m Hm. by rewrite lookup_empty in Hm.
  - done.
Qed.

Lemma reachable_pool_inv (f : K -> W -> loaded V E * W) ttl (w : W) t ops sched s :
  exec sched (new_pool f ttl w t ops) = Some s -> pool_inv s.
Proof.
  apply exec_invariant; [|apply new_pool_inv].
  intros a s1 s2. apply pool_inv_step.
Qed.

(** Progress in any pool: a goroutine that has not finished can run, or the
    goroutine that holds what it waits for can. *)
Lemma pool_blocked s i op p :
  pool_inv s ->
  threads s !! i = Some (op, p) ->
  machine_step (Step i) s = None ->
  (exists r, p = Finished r) \/
  (p = AtEntry /\
   exists j opj pj, j <> i /\ threads s !! j = Some (opj, pj) /\
                    in_guard pj = true) \/
  (exists m, p = AtAcquire m /\
   exists j opj pj, j <> i /\ threads s !! j = Some (opj, pj) /\
                    call_key opj = call_key op /\ in_critical pj = true).
Proof.
  intros [[G1 G2 G3 G4] P1 P2 P3 P4 P5 P6 P7] Hi Hnone.
  simpl in Hnone. rewrite Hi in Hnone.
  destruct (thread_step (clock s) op p (cache s)) as [[p' c']|] eqn:Hs; [done|].
  clear Hnone.
  pose proof (thread_step_enabled (clock s) op p (cache s)) as Hen.
  destruct p as [| | |m|m|m|m|m|m v|m r|r];
    try (rewrite Hs in Hen; by destruct Hen).
  - right. left. split; [done|]. simpl in Hs.
    unfold guard_Lock in Hs.
    destruct (lockMapLock (cache s)) eqn:Hg; [|done].
    destruct (P7 eq_refl) as (j & opj & pj & Hj & Hgj).
    exists j, opj, pj. split; [|done]. intros ->. by simplify_eq.
  - right. right. exists m. split; [done|].
    pose proof (G4 _ _ _ _ Hi eq_refl) as Hreg.
    destruct (P1 _ _ Hreg) as [b Hb]. simpl in Hs.
    unfold Mutex_Lock in Hs. rewrite Hb in Hs.
    destruct b; [|by destruct op].
    destruct (P6 _ _ Hreg Hb) as (j & opj & pj & Hj & Hk & Hc).
    exists j, opj, pj. split; [|done]. intros ->. by simplify_eq.
  - left. eauto.
Qed.

Lemma pool_progress s i op p :
  pool_inv s ->
  threads s !! i = Some (op, p) -> finished (op, p) = false ->
  exists j, is_Some (machine_step (Step j) s).
Proof.
  intros Hinv Hi Hfin.
  destruct (machine_step (Step i) s) as [s1|] eqn:Hstep; [exists i; by eauto|].
  destruct (pool_blocked s i op p Hinv Hi Hstep)
    as [[r ->]|[(-> & j & opj & pj & _ & Hj & Hg)
               |(m & -> & j & opj & pj & _ & Hj & _ & Hc)]]; [done|..].
  - exists j. eapply machine_step_enabled; [done|]. by apply guard_step_enabled.
  - exists j. eapply machine_step_enabled; [done|].
    by apply critical_step_enabled.
Qed.

Lemma pool_completes (n : nat) s :
  (work s <= n)%nat -> pool_inv s ->
  exists sched s',
    exec sched s = Some s' /\ all_finished s' = true /\ clock s' = clock s.
Proof.
  revert s. induction n as [|n IH]; intros s Hwork Hinv.
  all: destruct (all_finished s) eqn:Hfin; [by exists [], s|].
  all: apply forallb_false_lookup in Hfin as (i & [op p] & Hi & Hp).
  all: destruct (pool_progress s i op p Hinv Hi Hp) as (j & s1 & Hj).
  all: destruct (work_step _ _ _ Hj) as [Hlt Hclock].
  - lia.
  - destruct (IH s1) as (sched & s' & Hex & Hdone & Hc);
      [lia|by eapply pool_inv_step|].
    exists (Step j :: sched), s'. cbn [exec]. rewrite Hj.
    split; [done|]. split; [done|]. congruence.
Qed.

(** X7: whatever calls of [Get] and [Put], on whatever keys, are made on a
    cache from its birth and however they interleave, two goroutines are
    never at once between [keyLock.Lock()] and [keyLock.Unlock()] for the
    same key, so that one call of the loader at most is in flight for a key,
    and a goroutine that is there holds the lock the registry has for its
    key. *)
Theorem per_key_mutual_exclusion
    (f : K -> W -> loaded V E * W) ttl (w : W) t ops sched s :
  exec sched (new_pool f ttl w t ops) = Some s ->
  (forall i j opi p_i opj p_j,
     threads s !! i = Some (opi, p_i) -> threads s !! j = Some (opj, p_j) ->
     call_key opi = call_key opj ->
     in_critical p_i = true -> in_critical p_j = true -> i = j) /\
  (forall i j opi opj m_i m_j,
     threads s !! i = Some (opi, AtLoad m_i) ->
     threads s !! j = Some (opj, AtLoad m_j) ->
     call_key opi = call_key opj -> i = j) /\
  (forall i op p m,
     threads s !! i = Some (op, p) -> in_critical p = true ->
     obtained p = Some m ->
     lockMap (cache s) !! call_key op = Some m /\
     mutexes (cache s) !! m = Some true).
Proof.
  intros Hex. pose proof (reachable_pool_inv _ _ _ _ _ _ _ Hex) as Hinv.
  split; [apply (key_exclusive s Hinv)|]. split.
  - intros i j opi opj m_i m_j Hi Hj Hkey.
    by apply (key_exclusive s Hinv _ _ _ _ _ _ Hi Hj Hkey).
  - intros i op p m Hi Hc Ho. split.
    + by apply (obtained_registered s (pool_registry s Hinv) _ _ _ _ Hi Ho).
    + by apply (key_locked s Hinv _ _ _ _ Hi Hc Ho).
Qed.

(** X8: calls on different keys never wait for one another on a lock of a
    key.  In every machine reached from the birth of a cache, goroutines of
    different keys hold different locks; and a goroutine that cannot run
    its next statement has finished, or waits for the registry guard while
    another goroutine is inside [getKeyLockFromMap], or waits for the lock of
    its key while another goroutine of the same key is in the critical
    section. *)
Theorem waits_only_for_own_key
    (f : K -> W -> loaded V E * W) ttl (w : W) t ops sched s :
  exec sched (new_pool f ttl w t ops) = Some s ->
  (forall i j opi p_i opj p_j m_i m_j,
     threads s !! i = Some (opi, p_i) -> threads s !! j = Some (opj, p_j) ->
     call_key opi <> call_key opj ->
     obtained p_i = Some m_i -> obtained p_j = Some m_j -> m_i <> m_j) /\
  (forall i op p,
     threads s !! i = Some (op, p) ->
     machine_step (Step i) s = None ->
     (exists r, p = Finished r) \/
     (p = AtEntry /\
      exists j opj pj, j <> i /\ threads s !! j = Some (opj, pj) /\
                       in_guard pj = true) \/
     (exists m, p = AtAcquire m /\
      exists j opj pj, j <> i /\ threads s !! j = Some (opj, pj) /\
                       call_key opj = call_key op /\ in_critical pj = true)).
Proof.
  intros Hex. pose proof (reachable_pool_inv _ _ _ _ _ _ _ Hex) as Hinv.
  split.
  - intros i j opi p_i opj p_j m_i m_j Hi Hj Hkey Hoi Hoj Heq. subst m_j.
    apply Hkey. eapply (registry_injective s Hinv).
    + by apply (obtained_registered s (pool_registry s Hinv) _ _ _ _ Hi Hoi).
    + by apply (obtained_registered s (pool_registry s Hinv) _ _ _ _ Hj Hoj).
  - intros i op p Hi Hnone. by apply pool_blocked.
Qed.

(** ** What a pool uses *)

Lemma threads_ops_step a s s' :
  machine_step a s = Some s' -> fst <$> threads s' = fst <$> threads s.
Proof.
  destruct a as [i|dt]; simpl; intros Hstep.
  - destruct (threads s !! i) as [[op p]|] eqn:Hi; [|done].
    destruct (thread_step _ _ _ _) as [[p' c']|]; [|done].
    injection Hstep as <-. simpl. rewrite list_fmap_insert. simpl.
    apply list_insert_id. by rewrite list_lookup_fmap, Hi.
  - by injection Hstep as <-.
Qed.

Lemma thread_ops_lookup (ts : list (call K V * pc V E)) i op p :
  ts !! i = Some (op, p) -> op ∈ fst <$> ts.
Proof.
  intros Hi. apply list_elem_of_lookup. exists i.
  by rewrite list_lookup_fmap, Hi.
Qed.

Lemma usage_inv_step (w : W) ops a s s' :
  usage_inv w ops s -> machine_step a s = Some s' -> usage_inv w ops s'.
Proof.
  intros [U1 U2 U3 U4 U5 U6 U7] Hstep.
  pose proof (threads_ops_step _ _ _ Hstep) as Hops.
  destruct a as [i|dt]; simpl in Hstep.
  2: { injection Hstep as <-. by constructor. }
  destruct (threads s !! i) as [[op p]|] eqn:Hi; [|done].
  destruct (thread_step _ _ _ _) as [[p' c']|] eqn:Hs; [|done].
  injection Hstep as <-.
  pose proof (sum_list_with_insert may_load (threads s) i (op, p) (op, p') Hi)
    as Hsum.
  assert (Hop : op ∈ ops).
  { rewrite <- U1. by eapply thread_ops_lookup. }
  assert (Hkey : call_key op ∈ call_key <$> ops).
  { by apply list_elem_of_fmap_2. }
  assert (Hput : forall k v, op = CallPut k v -> off_Get_path p = true).
  { intros k v ->. by eapply U2. }
  constructor; simpl.
  - simpl in Hops. congruence.
  - intros j k v q Hj. moved Hj; [|by eapply U2].
    specialize (Hput _ _ eq_refl). step_cases Hs; simpl in *; done.
  - unfold loads_left in *. simpl.
    assert (Hold : exists a, a = may_load (op, p)) by eauto.
    assert (Hnew : exists b, b = may_load (op, p')) by eauto.
    destruct Hold as [a Hold]. destruct Hnew as [b Hnew].
    rewrite <- Hold, <- Hnew in Hsum. unfold may_load in Hold, Hnew.
    destruct op as [k|k v]; [|specialize (Hput _ _ eq_refl)];
      step_cases Hs; simpl in Hsum, Hput |- *;
      rewrite ?length_app; simpl; try lia; done.
  - intros k Hk. step_cases Hs; simpl in *; try by apply U4.
    all: apply elem_of_app in Hk as [Hk|Hk]; [by apply U4|].
    all: apply list_elem_of_singleton in Hk as ->.
    all: destruct op as [k0|k0 v0]; [done|by specialize (Hput _ _ eq_refl)].
  - intros Hnil. step_cases Hs; simpl in *; try by apply U5.
    all: by destruct (loaderCalls (cache s)).
  - intros k Hk. step_cases Hs; simpl in *; try by apply U6.
    apply lookup_insert_is_Some in Hk as [<-|[_ Hk]]; [done|by apply U6].
  - intros k Hk. step_cases Hs; simpl in *; try by apply U7.
    all: apply lookup_insert_is_Some in Hk as [<-|[_ Hk]]; [done|by apply U7].
Qed.

Lemma count_Gets_pool (ops : list (call K V)) :
  sum_list_with may_load (map (fun op => (op, @AtEntry V E)) ops) = count_Gets ops.
Proof.
  unfold count_Gets. induction ops as [|op ops IH]; simpl; [done|].
  rewrite IH. unfold may_load. simpl. by destruct (is_Get op).
Qed.

Lemma new_pool_usage (f : K -> W -> loaded V E * W) ttl (w : W) t ops :
  usage_inv w ops (new_pool f ttl w t ops).
Proof.
  constructor; simpl.
  - rewrite <- list_fmap_compose. simpl. apply list_fmap_id.
  - intros i k v p Hi. rewrite list_lookup_fmap in Hi.
    destruct (ops !! i); simpl in Hi; by simplify_eq.
  - unfold loads_left. simpl. by rewrite count_Gets_pool.
  - intros k Hk. by apply elem_of_nil in Hk.
  - done.
  - intros k [m Hm]. by rewrite lookup_empty in Hm.
  - intros k [m Hm]. by rewrite lookup_empty in Hm.
Qed.

Lemma reachable_usage (f : K -> W -> loaded V E * W) ttl (w : W) t ops sched s :
  exec sched (new_pool f ttl w t ops) = Some s -> usage_inv w ops s.
Proof.
  apply exec_invariant; [|apply new_pool_usage].
  intros a s1 s2. apply usage_inv_step.
Qed.

(** X10: over the whole life of a cache the loader is called at most once
    for each call of [Get], and only with the key of a [Get] that was made;
    [Put] never calls it: when all the calls are [Put]s the loader is not
    called and its world is untouched. *)
Theorem loader_calls_bounded
    (f : K -> W -> loaded V E * W) ttl (w : W) t ops sched s :
  exec sched (new_pool f ttl w t ops) = Some s ->
  (length (loaderCalls (cache s)) <= count_Gets ops)%nat /\
  (forall k, k ∈ loaderCalls (cache s) -> CallGet k ∈ ops) /\
  (count_Gets ops = 0%nat ->
     loaderCalls (cache s) = [] /\ loaderWorld (cache s) = w).
Proof.
  intros Hex. pose proof (reachable_usage _ _ _ _ _ _ _ Hex) as [_ _ U3 U4 U5 _ _].
  split; [lia|]. split; [done|]. intros Hzero.
  assert (Hnil : loaderCalls (cache s) = []).
  { destruct (loaderCalls (cache s)); [done|]. simpl in U3. lia. }
  split; [done|by apply U5].
Qed.

(** X11: the two maps hold keys that were asked for and no others: in every
    machine reached from the birth of a cache, a key with a lock in the
    registry, or with an entry in the value store, is the key of one of the
    calls. *)
Theorem maps_hold_requested_keys
    (f : K -> W -> loaded V E * W) ttl (w : W) t ops sched s :
  exec sched (new_pool f ttl w t ops) = Some s ->
  (forall k, is_Some (lockMap (cache s) !! k) -> k ∈ call_key <$> ops) /\
  (forall k, is_Some (dataMap (cache s) !! k) -> k ∈ call_key <$> ops).
Proof.
  intros Hex. pose proof (reachable_usage _ _ _ _ _ _ _ Hex) as [_ _ _ _ _ U6 U7].
  by split.
Qed.

(** ** The calls of one key *)

Lemma on_key_lookup key (ops : list (call K V)) (ts : list (call K V * pc V E))
    i op p :
  on_key key ops = true -> fst <$> ts = ops ->
  ts !! i = Some (op, p) -> call_key op = key.
Proof.
  intros Hon Hops Hi. unfold on_key in Hon.
  pose proof (thread_ops_lookup _ _ _ _ Hi) as Hin. rewrite Hops in Hin.
  apply list_elem_of_In in Hin.
  pose proof (proj1 (forallb_forall _ _) Hon _ Hin) as Hk.
  by apply bool_decide_eq_true in Hk.
Qed.

(** X9: no deadlock among the calls of one key.  Whatever calls of [Get]
    and [Put] of one key are made on a cache from its birth, with a loader
    whose every call returns or panics and that does not call the cache, and
    however far a schedule has run them: one goroutine at most is between
    [keyLock.Lock()] and [keyLock.Unlock()], so that no two accesses to the
    value store ever meet; the calls can all be run to their end from there,
    each one returning or panicking, without the clock moving; and when they
    have all ended no mutex is held. *)
Theorem one_key_pool_never_deadlocks
    (f : K -> W -> loaded V E * W) ttl (w : W) t key ops sched s :
  on_key key ops = true ->
  exec sched (new_pool f ttl w t ops) = Some s ->
  (forall i j opi p_i opj p_j,
     threads s !! i = Some (opi, p_i) -> threads s !! j = Some (opj, p_j) ->
     in_critical p_i = true -> in_critical p_j = true -> i = j) /\
  exists sched' s',
    exec sched' s = Some s' /\
    all_finished s' = true /\
    clock s' = clock s /\
    lockMapLock (cache s') = false /\
    forall k m, lockMap (cache s') !! k = Some m ->
                mutexes (cache s') !! m = Some false.
Proof.
  intros Hon Hex. pose proof (reachable_pool_inv _ _ _ _ _ _ _ Hex) as Hinv.
  pose proof (reachable_usage _ _ _ _ _ _ _ Hex) as [Hops _ _ _ _ _ _].
  split.
  - intros i j opi p_i opj p_j Hi Hj.
    apply (key_exclusive s Hinv _ _ _ _ _ _ Hi Hj).
    by rewrite (on_key_lookup _ _ _ _ _ _ Hon Hops Hi),
               (on_key_lookup _ _ _ _ _ _ Hon Hops Hj).
  - destruct (pool_completes (work s) s (le_n _) Hinv)
      as (sched' & s' & Hex' & Hfin & Hclock).
    exists sched', s'. split; [done|]. split; [done|]. split; [done|].
    assert (Hinv' : pool_inv s').
    { eapply exec_invariant; [|exact Hinv|exact Hex'].
      intros a s1 s2. apply pool_inv_step. }
    assert (Hdone : forall i op p, threads s' !! i = Some (op, p) ->
                      in_guard p = false /\ in_critical p = false).
    { intros i op p Hi. pose proof (forallb_lookup _ _ _ _ Hfin Hi) as Hp.
      unfold finished in Hp. simpl in Hp. by destruct p. }
    split.
    + destruct (lockMapLock (cache s')) eqn:Hg; [|done].
      destruct (guard_has_owner s' Hinv' Hg) as (j & opj & pj & Hj & Hgj).
      destruct (Hdone _ _ _ Hj) as [Hn _]. congruence.
    + intros k m Hm.
      destruct (registry_valid s' Hinv' _ _ Hm) as [[|] Hb]; [|done].
      destruct (key_owner s' Hinv' _ _ Hm Hb) as (j & opj & pj & Hj & _ & Hc).
      destruct (Hdone _ _ _ Hj) as [_ Hn]. congruence.
Qed.

(** ** A batch of [Get]s that finds the entry *)

Lemma reading_inv_step key c0 (e : CacheValue V) a s s' :
  dataMap c0 !! key = Some e ->
  reading_inv key c0 e s ->
  clock s <= Expiration e ->
  machine_step a s = Some s' ->
  reading_inv key c0 e s'.
Proof.
  intros He [R1 R2 R3 R4] Hbound Hstep.
  destruct a as [i|dt]; simpl in Hstep.
  2: { injection Hstep as <-. by constructor. }
  destruct (threads s !! i) as [[op p]|] eqn:Hi; [|done].
  destruct (thread_step _ _ _ _) as [[p' c']|] eqn:Hs; [|done].
  injection Hstep as <-.
  destruct (R4 _ _ _ Hi) as [-> Hp].
  rewrite <- R1 in He.
  assert (Hkeep : serves (Value e) p' ->
            forall j opj pj,
              <[i:=(CallGet key, p')]> (threads s) !! j = Some (opj, pj) ->
              opj = CallGet key /\ serves (Value e) pj).
  { intros Hp' j opj pj Hj. moved Hj; [done|by eapply R4]. }
  step_cases Hs; simpl in *; try done.
  all: try (constructor; simpl; try done; by apply Hkeep).
  all: simplify_eq.
  all: match goal with
       | Hx : Expired _ _ = true |- _ => apply Expired_iff in Hx; lia
       end.
Qed.

Lemma reading_inv_exec key c0 (e : CacheValue V) sched s s' :
  dataMap c0 !! key = Some e ->
  reading_inv key c0 e s ->
  exec sched s = Some s' ->
  clock s' <= Expiration e ->
  reading_inv key c0 e s'.
Proof.
  intros He. revert s.
  induction sched as [|a sched IH]; intros s Hinv Hex Hbound; simpl in Hex.
  - by injection Hex as <-.
  - destruct (machine_step a s) as [s1|] eqn:Ha; [|done].
    pose proof (machine_step_clock _ _ _ Ha) as H1.
    pose proof (exec_clock _ _ _ Hex) as H2.
    eapply IH; [|done|done].
    eapply reading_inv_step; [done|done| |done]. lia.
Qed.

Lemma concurrent_Gets_reading n key c t (e : CacheValue V) :
  reading_inv key c e (concurrent_Gets n key c t).
Proof.
  constructor; simpl; try done.
  intros i op p Hi. apply lookup_replicate in Hi as [Hi _]. by simplify_eq.
Qed.

(** X12: when [n] goroutines call [Get] of a key whose entry has not
    expired, then as long as the clock has not passed the expiration of the
    entry no goroutine calls the loader, the value store is as it was, every
    call that has ended has returned the value of the entry, and the calls
    that have not can all be run to their end and return it too. *)
Theorem concurrent_Gets_hit n key c t (e : CacheValue V) sched s :
  uncontended c key = true ->
  dataMap c !! key = Some e ->
  exec sched (concurrent_Gets n key c t) = Some s ->
  clock s <= Expiration e ->
  dataMap (cache s) = dataMap c /\
  loader_untouched c (cache s) /\
  (forall i op r, threads s !! i = Some (op, Finished r) ->
                  r = GetReturned (Value e)) /\
  exists sched' s',
    exec sched' s = Some s' /\
    all_finished s' = true /\
    clock s' = clock s /\
    dataMap (cache s') = dataMap c /\
    loader_untouched c (cache s') /\
    threads s' = replicate n (CallGet key, Finished (GetReturned (Value e))).
Proof.
  intros Hu He Hex Hbound.
  pose proof (concurrent_Gets_reading n key c t e) as Hinv0.
  pose proof (reading_inv_exec _ _ _ _ _ _ He Hinv0 Hex Hbound) as [R1 R2 R3 R4].
  split; [done|]. split; [by split|]. split.
  { intros i op r Hi. by destruct (R4 _ _ _ Hi) as [_ Hr]. }
  pose proof (concurrent_Gets_inv n key c t (Value e) (loaderWorld c) Hu)
    as [_ _ _ Hk Hreg Hmut _].
  pose proof (concurrent_Gets_live n key c t Hu) as Hlive.
  destruct (live_inv_exec _ _ _ _ Hk Hreg Hmut Hlive Hex)
    as (Hk' & Hreg' & Hmut' & Hlive').
  destruct (completes key (work s) s (le_n _) Hk' Hreg' Hmut' Hlive')
    as (sched' & s' & Hex' & Hfin & Hclock).
  exists sched', s'. split; [done|]. split; [done|]. split; [done|].
  assert (Hall : exec (sched ++ sched') (concurrent_Gets n key c t) = Some s').
  { by rewrite exec_app, Hex. }
  assert (Hbound' : clock s' <= Expiration e) by by rewrite Hclock.
  pose proof (reading_inv_exec _ _ _ _ _ _ He Hinv0 Hall Hbound')
    as [R1' R2' R3' R4'].
  split; [done|]. split; [by split|].
  pose proof (exec_threads_length _ _ _ Hall) as Hlen. simpl in Hlen.
  rewrite length_replicate in Hlen.
  apply list_eq_same_length with (n := n); [by rewrite length_replicate|done|].
  intros i [op p] y Hi Hx Hy. apply lookup_replicate in Hy as [-> _].
  destruct (R4' _ _ _ Hx) as [-> Hp].
  pose proof (forallb_lookup _ _ _ _ Hfin Hx) as Hdone.
  unfold finished in Hdone. simpl in Hdone.
  destruct p; try done. simpl in Hp. by subst.
Qed.

(** ** How old an entry can be *)

Lemma entries_inv_step t0 ttl a s s' :
  entries_inv t0 ttl s -> machine_step a s = Some s' -> entries_inv t0 ttl s'.
Proof.
  intros [E1 E2 E3] Hstep.
  pose proof (machine_step_clock _ _ _ Hstep) as Hclock.
  destruct a as [i|dt]; simpl in Hstep.
  2: { injection Hstep as <-. constructor; simpl in *; [done|lia|].
       intros k e He. specialize (E3 _ _ He). lia. }
  destruct (threads s !! i) as [[op p]|] eqn:Hi; [|done].
  destruct (thread_step _ _ _ _) as [[p' c']|] eqn:Hs; [|done].
  injection Hstep as <-.
  destruct (thread_step_static _ _ _ _ _ _ Hs) as [_ Httl].
  constructor; simpl; [congruence|done|].
  intros k e He.
  apply thread_step_dataMap in Hs as [Hd|(m & v & -> & Hd)];
    rewrite Hd in He; [by eapply E3|].
  apply lookup_insert_Some in He as [[_ <-]|[_ He]]; [|by eapply E3].
  simpl. lia.
Qed.

(** X13: an entry of the value store never expires later than the TTL after
    the present clock, nor earlier than the TTL after the birth of the
    cache: its expiration is the clock of its store plus the TTL, whatever
    calls were made and however they interleaved.  So an entry that is not
    expired at the clock [now] was stored at [now - ttl] at the earliest. *)
Theorem entries_expire_within_ttl
    (f : K -> W -> loaded V E * W) ttl (w : W) t ops sched s :
  exec sched (new_pool f ttl w t ops) = Some s ->
  cacheDuration (cache s) = ttl /\
  forall k e,
    dataMap (cache s) !! k = Some e ->
    t + ttl <= Expiration e <= clock s + ttl /\
    (forall now, Expired e now = false -> now - ttl <= Expiration e - ttl <= clock s).
Proof.
  intros Hex.
  assert (Hinv : entries_inv t ttl s).
  { eapply exec_invariant; [| |exact Hex].
    - intros a s1 s2. apply entries_inv_step.
    - constructor; simpl; [done|lia|].
      intros k e He. by rewrite lookup_empty in He. }
  destruct Hinv as [E1 E2 E3]. split; [done|].
  intros k e He. specialize (E3 _ _ He). split; [done|].
  intros now Hfresh. apply Expired_false_iff in Hfresh. lia.
Qed.

End Properties.

(** * The claims on concrete caches *)

Import Demo.

(** The scenario of the specification: loader [key -> key * 2], TTL 100. *)
Example scenario :
  let c0 := doubling_cache 100 in
  let '(r1, c1) := Get 5 0 0 c0 in
  let '(r2, c2) := Get 5 1 1 c1 in
  let '(r3, c3) := Get 5 150 150 c2 in
  let '(_, c4) := Put 5 999 151 c3 in
  let '(r5, c5) := Get 5 152 152 c4 in
  (r1, r2, r3, r5) = (Return 10, Return 10, Return 10, Return 999) /\
  (loaderCalls c1, loaderCalls c2, loaderCalls c3, loaderCalls c5) =
    ([5], [5], [5; 5], [5; 5]).
Proof. vm_compute. split; reflexivity. Qed.

(** C3 as the claim states it fails: at the very instant of its
    [Expiration] an entry is not expired. *)
Lemma Expired_at_Expiration_counterexample :
  ~ (forall (e : CacheValue Z) (now : Z),
       Expired e now = true <-> Expiration e <= now).
Proof.
  intros Hclaim.
  destruct (Hclaim (mkCacheValue 10 5) 5) as [_ Hexp].
  assert (Hfalse : Expired (mkCacheValue 10 5) 5 = true) by (apply Hexp; simpl; lia).
  vm_compute in Hfalse. discriminate Hfalse.
Qed.

Lemma Get_load_or_hit_witness :
  uncontended (doubling_cache 100) 5 = true /\
  (exists c', Get 5 0 0 (doubling_cache 100) = (Return 10, c') /\
     dataMap c' = <[5 := mkCacheValue 10 (0 + 100)]> (dataMap (doubling_cache 100)) /\
     loader_called_once 5 (doubling_cache 100) c' /\ loaderWorld c' = 1%nat) /\
  (exists c', Get 5 99 99 (after_Get5 100 0) = (Return 10, c') /\
     dataMap c' = dataMap (after_Get5 100 0) /\
     loader_untouched (after_Get5 100 0) c').
Proof.
  split; [reflexivity|]. split.
  - apply (proj1 (Get_load_or_hit (doubling_cache 100) 5 0 0 eq_refl)
             (or_introl eq_refl) 10 1%nat eq_refl).
  - apply (proj2 (Get_load_or_hit (after_Get5 100 0) 5 99 99 eq_refl)
             (mkCacheValue 10 100) eq_refl eq_refl).
Defined.

Lemma ttl_window_witness :
  (uncontended (doubling_cache 100) 5 = true /\
   must_load (dataMap (doubling_cache 100) !! 5) 0 = true /\
   Get 5 0 0 (doubling_cache 100) = (Return 10, after_Get5 100 0)) /\
  (exists c'', Get 5 (0 + 100 - 1) 7 (after_Get5 100 0) = (Return 10, c'') /\
               loader_untouched (after_Get5 100 0) c'') /\
  loader_called_once 5 (after_Get5 100 0)
    (snd (Get 5 (0 + 100 + 1) 7 (after_Get5 100 0))).
Proof.
  split; [repeat split; reflexivity|].
  pose proof (ttl_window (doubling_cache 100) 5 0 0 10 (after_Get5 100 0)
                eq_refl eq_refl eq_refl) as [Hhit Hmiss].
  split.
  - apply (Hhit 1 7). simpl. lia.
  - apply (Hmiss 1 7). lia.
Defined.

Lemma loader_panic_not_cached_witness :
  (uncontended (doubling_cache 100) (-3) = true /\
   must_load (dataMap (doubling_cache 100) !! (-3)) 0 = true /\
   doubling (-3) 0%nat = (Panics (-3), 1%nat)) /\
  exists c',
    Get (-3) 0 0 (doubling_cache 100) = (Panic (-3), c') /\
    (exists m, lockMap c' !! (-3) = Some m /\ mutexes c' !! m = Some false) /\
    lockMapLock c' = false /\
    dataMap c' = dataMap (doubling_cache 100) /\
    forall now3 now4, 0 <= now3 ->
      loader_called_once (-3) c' (snd (Get (-3) now3 now4 c')).
Proof.
  split; [repeat split; reflexivity|].
  apply (loader_panic_not_cached (doubling_cache 100) (-3) 0 0 (-3) 1%nat
           eq_refl eq_refl eq_refl).
Defined.

(** C6 as the claim states it fails: with a TTL of zero, a [Get] one
    nanosecond after the [Put] calls the loader and returns its value, not
    the value that was put. *)
Lemma Put_then_Get_counterexample :
  fst (Get 5 1 1 (after_Put5 0 0)) = Return 10 /\
  fst (Get 5 1 1 (after_Put5 0 0)) <> Return (E := Z) 999 /\
  loaderCalls (after_Put5 0 0) = [] /\
  loaderCalls (snd (Get 5 1 1 (after_Put5 0 0))) = [5].
Proof. vm_compute. repeat split. intros Heq. discriminate Heq. Qed.

Lemma Put_then_Get_witness :
  uncontended (doubling_cache 100) 5 = true /\
  exists c1,
    Put 5 999 0 (doubling_cache 100) = (Return tt, c1) /\
    loader_untouched (doubling_cache 100) c1 /\
    dataMap c1 = <[5 := mkCacheValue 999 (0 + 100)]> (dataMap (doubling_cache 100)) /\
    (50 <= 0 + 100 ->
       exists c2, Get 5 50 51 c1 = (Return 999, c2) /\ loader_untouched c1 c2) /\
    (0 + 100 < 50 -> loader_called_once 5 c1 (snd (Get 5 50 51 c1))).
Proof.
  split; [reflexivity|].
  apply (Put_then_Get (doubling_cache 100) 5 999 0 50 51 eq_refl).
Defined.

(** C7 as the claim states it fails: with a TTL of zero, a [Get] that reads
    the very clock value of the [Put] is served the entry, and the loader is
    not called. *)
Lemma zero_ttl_counterexample :
  cacheDuration (after_Put5 0 7) = 0 /\
  fst (Get 5 7 7 (after_Put5 0 7)) = Return 999 /\
  loaderCalls (snd (Get 5 7 7 (after_Put5 0 7))) = [].
Proof. vm_compute. repeat split. Qed.

Lemma zero_ttl_witness :
  (cacheDuration (doubling_cache 0) = 0 /\
   uncontended (doubling_cache 0) 5 = true) /\
  (exists c',
     Get 5 3 4 (doubling_cache 0) = (Return 10, c') /\
     loader_called_once 5 c' (snd (Get 5 5 6 c'))) /\
  (exists c1,
     Put 5 999 4 (doubling_cache 0) = (Return tt, c1) /\
     loader_called_once 5 c1 (snd (Get 5 5 6 c1))).
Proof.
  split; [split; reflexivity|].
  destruct (zero_ttl (doubling_cache 0) 5 eq_refl eq_refl) as [HGet HPut].
  split.
  - destruct (HGet 3 4 10 1%nat eq_refl eq_refl) as (c' & HG & Hnext).
    exists c'. split; [exact HG|]. apply (proj1 (Hnext 5 6)). lia.
  - destruct (HPut 999 4) as (c1 & HP & Hnext).
    exists c1. split; [exact HP|]. apply (proj1 (Hnext 5 6)). lia.
Defined.

Lemma Get_hit_writes_nothing_witness :
  (uncontended (after_Get5 100 0) 5 = true /\
   dataMap (after_Get5 100 0) !! 5 = Some (mkCacheValue 10 100) /\
   Expired (mkCacheValue 10 100) 50 = false) /\
  exists c',
    Get 5 50 51 (after_Get5 100 0) = (Return 10, c') /\
    dataMap c' = dataMap (after_Get5 100 0) /\
    loader_untouched (after_Get5 100 0) c' /\
    (is_Some (lockMap (after_Get5 100 0) !! 5) -> c' = after_Get5 100 0) /\
    (lockMap (after_Get5 100 0) !! 5 = None ->
       c' = lockMap_store 5 (length (mutexes (after_Get5 100 0)))
              (set_mutexes (fun h => h ++ [false]) (after_Get5 100 0))).
Proof.
  split; [repeat split; reflexivity|].
  apply (Get_hit_writes_nothing (after_Get5 100 0) 5 50 51
           (mkCacheValue 10 100) eq_refl eq_refl eq_refl).
Defined.

(** C1 as the claim states it fails: two goroutines are inside [Get(5)] on a
    new cache with a TTL of zero, goroutine 1 waiting for the lock of the key
    that goroutine 0 holds.  Goroutine 0 loads, stores and unlocks; goroutine
    1 takes the lock one nanosecond later, finds the entry expired and calls
    the loader again: two calls of the loader, and two different values
    returned. *)
Lemma single_flight_counterexample :
  uncontended (ticket_cache 0) 5 = true /\
  must_load (dataMap (ticket_cache 0) !! 5) 0 = true /\
  (exists s1,
     exec both_inside (two_Gets 0) = Some s1 /\
     threads s1 = [(CallGet 5, AtRead 0%nat); (CallGet 5, AtAcquire 0%nat)] /\
     machine_step (Step 1) s1 = None) /\
  (exists s',
     exec (both_inside ++ winner_finishes ++ loser_loads 1) (two_Gets 0)
       = Some s' /\
     all_finished s' = true /\
     loaderCalls (cache s') = [5; 5] /\
     threads s' = [(CallGet 5, Finished (GetReturned 10));
                   (CallGet 5, Finished (GetReturned 1010))]).
Proof.
  split; [reflexivity|]. split; [reflexivity|]. split.
  - eexists. split; [vm_compute; reflexivity|]. split; reflexivity.
  - eexists. split; [vm_compute; reflexivity|]. repeat split.
Qed.

(** The same with a TTL of 100 when goroutine 1 gets the lock 101
    nanoseconds after the store: its test comes after the deadline. *)
Example single_flight_late_loser :
  tests_in_time None (both_inside ++ winner_finishes ++ loser_loads 101)
    (two_Gets 100) = false /\
  exists s',
    exec (both_inside ++ winner_finishes ++ loser_loads 101) (two_Gets 100)
      = Some s' /\
    all_finished s' = true /\
    loaderCalls (cache s') = [5; 5] /\
    threads s' = [(CallGet 5, Finished (GetReturned 10));
                  (CallGet 5, Finished (GetReturned 1010))].
Proof.
  split; [vm_compute; reflexivity|].
  eexists. split; [vm_compute; reflexivity|]. repeat split.
Qed.

Lemma single_flight_witness :
  ((0 < 2)%nat /\
   uncontended (ticket_cache 100) 5 = true /\
   must_load (dataMap (ticket_cache 100) !! 5) 0 = true /\
   ticket 5 0%nat = (Loaded 10, 1%nat)) /\
  exists s,
    exec slow_batch (two_Gets 100) = Some s /\
    clock s = 240 /\
    tests_in_time None slow_batch (two_Gets 100) = true /\
    all_finished s = true /\
    loader_called_once 5 (ticket_cache 100) (cache s) /\
    loaderWorld (cache s) = 1%nat /\
    threads s = replicate 2 (CallGet 5, Finished (GetReturned 10)).
Proof.
  split; [repeat split; lia|].
  eexists. split; [vm_compute; reflexivity|].
  split; [reflexivity|]. split; [vm_compute; reflexivity|].
  split; [reflexivity|].
  match goal with
  | |- _ /\ _ /\ threads ?s0 = _ =>
      pose proof (single_flight 2 5 (ticket_cache 100) 0 10 1%nat slow_batch
                    s0) as Hflight
  end.
  assert (Hex : exec slow_batch (two_Gets 100) = Some _)
    by (vm_compute; reflexivity).
  assert (Htests : tests_in_time None slow_batch (two_Gets 100) = true)
    by (vm_compute; reflexivity).
  apply (proj2 (proj2 (proj1 (proj2
           (Hflight ltac:(lia) eq_refl eq_refl eq_refl Hex)) Htests))).
  reflexivity.
Defined.

Lemma one_lock_per_key_witness :
  starting (two_Gets 100) = true /\
  exists s,
    exec both_inside (two_Gets 100) = Some s /\
    threads s = [(CallGet 5, AtRead 0%nat); (CallGet 5, AtAcquire 0%nat)] /\
    (forall i j op_i op_j p_i p_j m_i m_j,
       threads s !! i = Some (op_i, p_i) ->
       threads s !! j = Some (op_j, p_j) ->
       call_key op_i = call_key op_j ->
       obtained p_i = Some m_i -> obtained p_j = Some m_j ->
       m_i = m_j) /\
    (forall key m sched' s',
       lockMap (cache s) !! key = Some m ->
       exec sched' s = Some s' ->
       lockMap (cache s') !! key = Some m) /\
    (length (mutexes (cache (two_Gets 100))) =
       size (lockMap (cache (two_Gets 100))) ->
     (forall i op p, threads s !! i = Some (op, p) -> at_insert p = false) ->
     length (mutexes (cache s)) = size (lockMap (cache s))).
Proof.
  split; [reflexivity|].
  eexists. split; [vm_compute; reflexivity|]. split; [reflexivity|].
  apply (one_lock_per_key (two_Gets 100) both_inside _ eq_refl).
  vm_compute. reflexivity.
Defined.

(** * More of the code on concrete caches *)

Lemma Put_Put_witness :
  uncontended (doubling_cache 100) 5 = true /\
  snd (Put 5 2 8 (snd (Put 5 1 7 (doubling_cache 100)))) =
  snd (Put 5 2 8 (doubling_cache 100)).
Proof.
  split; [reflexivity|].
  apply (Put_Put (doubling_cache 100) 5 1 2 7 8 eq_refl).
Defined.

Lemma Get_returns_stored_witness :
  (uncontended (doubling_cache 100) 5 = true /\
   Get 5 0 0 (doubling_cache 100) = (Return 10, after_Get5 100 0)) /\
  exists e,
    dataMap (after_Get5 100 0) !! 5 = Some e /\ Value e = 10 /\
    (loaderCalls (after_Get5 100 0) = loaderCalls (doubling_cache 100) ->
     Expired e 0 = false).
Proof.
  split; [split; reflexivity|].
  apply (Get_returns_stored (doubling_cache 100) 5 0 0 10 (after_Get5 100 0)
           eq_refl eq_refl).
Defined.

Lemma negative_ttl_never_hits_witness :
  (cacheDuration negative_cache < 0 /\
   uncontended negative_cache 5 = true) /\
  loader_called_once 5 (snd (Put 5 999 3 negative_cache))
    (snd (Get 5 3 4 (snd (Put 5 999 3 negative_cache)))).
Proof.
  split; [split; reflexivity|].
  apply (proj1 (negative_ttl_never_hits negative_cache 5 eq_refl eq_refl)
           999 3 3 4).
  lia.
Defined.

Lemma per_key_mutual_exclusion_witness :
  exists s,
    exec mixed_schedule mixed_pool = Some s /\
    threads s = [(CallGet 5, AtRead 0%nat); (CallPut 7 70, AtStore 1%nat 70);
                 (CallGet 7, AtAcquire 1%nat)] /\
    forall i j opi p_i opj p_j,
      threads s !! i = Some (opi, p_i) -> threads s !! j = Some (opj, p_j) ->
      call_key opi = call_key opj ->
      in_critical p_i = true -> in_critical p_j = true -> i = j.
Proof.
  eexists. split; [vm_compute; reflexivity|]. split; [reflexivity|].
  refine (proj1 (per_key_mutual_exclusion doubling 100 0%nat 0 mixed_calls
                   mixed_schedule _ _)).
  vm_compute. reflexivity.
Defined.

Lemma waits_only_for_own_key_witness :
  exists s,
    exec mixed_schedule mixed_pool = Some s /\
    machine_step (Step 2) s = None /\
    ((exists r, @AtAcquire Z Z 1%nat = Finished r) \/
     (@AtAcquire Z Z 1%nat = AtEntry /\
      exists j opj pj, j <> 2%nat /\ threads s !! j = Some (opj, pj) /\
                       in_guard pj = true) \/
     (exists m, @AtAcquire Z Z 1%nat = AtAcquire m /\
      exists j opj pj, j <> 2%nat /\ threads s !! j = Some (opj, pj) /\
                       call_key opj = call_key (CallGet 7 : call Z Z) /\
                       in_critical pj = true)).
Proof.
  eexists. split; [vm_compute; reflexivity|]. split; [reflexivity|].
  match goal with
  | |- context [threads ?s0 !! _] =>
      pose proof (waits_only_for_own_key doubling 100 0%nat 0 mixed_calls
                    mixed_schedule s0) as Hwait
  end.
  assert (Hex : exec mixed_schedule mixed_pool = Some _)
    by (vm_compute; reflexivity).
  apply (proj2 (Hwait Hex) 2%nat (CallGet 7) (AtAcquire 1%nat) eq_refl eq_refl).
Defined.

Lemma one_key_pool_never_deadlocks_witness :
  on_key 5 one_key_calls = true /\
  exists s,
    exec one_key_schedule (new_pool doubling 100 0%nat 0 one_key_calls)
      = Some s /\
    threads s = [(CallGet 5, AtLoad 0%nat); (CallPut 5 50, AtAcquire 0%nat);
                 (CallGet 5, AtAcquire 0%nat)] /\
    exists sched' s',
      exec sched' s = Some s' /\
      all_finished s' = true /\
      clock s' = clock s /\
      lockMapLock (cache s') = false /\
      forall k m, lockMap (cache s') !! k = Some m ->
                  mutexes (cache s') !! m = Some false.
Proof.
  split; [reflexivity|].
  eexists. split; [vm_compute; reflexivity|]. split; [reflexivity|].
  refine (proj2 (one_key_pool_never_deadlocks doubling 100 0%nat 0 5
                   one_key_calls one_key_schedule _ eq_refl _)).
  vm_compute. reflexivity.
Defined.

Lemma loader_calls_bounded_witness :
  exists s,
    exec (replicate 8 (Step 0) ++ replicate 8 (Step 1))
      (new_pool doubling 100 0%nat 0 two_Puts) = Some s /\
    all_finished s = true /\
    (length (loaderCalls (cache s)) <= count_Gets two_Puts)%nat /\
    (forall k, k ∈ loaderCalls (cache s) -> CallGet k ∈ two_Puts) /\
    (count_Gets two_Puts = 0%nat ->
       loaderCalls (cache s) = [] /\ loaderWorld (cache s) = 0%nat).
Proof.
  eexists. split; [vm_compute; reflexivity|]. split; [reflexivity|].
  apply (loader_calls_bounded doubling 100 0%nat 0 two_Puts
           (replicate 8 (Step 0) ++ replicate 8 (Step 1))).
  vm_compute. reflexivity.
Defined.

Lemma maps_hold_requested_keys_witness :
  exists s,
    exec mixed_schedule mixed_pool = Some s /\
    (forall k, is_Some (lockMap (cache s) !! k) -> k ∈ call_key <$> mixed_calls) /\
    (forall k, is_Some (dataMap (cache s) !! k) -> k ∈ call_key <$> mixed_calls).
Proof.
  eexists. split; [vm_compute; reflexivity|].
  apply (maps_hold_requested_keys doubling 100 0%nat 0 mixed_calls mixed_schedule).
  vm_compute. reflexivity.
Defined.

Lemma concurrent_Gets_hit_witness :
  (uncontended (after_Get5 100 0) 5 = true /\
   dataMap (after_Get5 100 0) !! 5 = Some (mkCacheValue 10 100)) /\
  exists s,
    exec (replicate 4 (Step 0) ++ [Tick 50] ++ replicate 2 (Step 1)) two_readers
      = Some s /\
    clock s <= 100 /\
    dataMap (cache s) = dataMap (after_Get5 100 0) /\
    loader_untouched (after_Get5 100 0) (cache s) /\
    exists sched' s',
      exec sched' s = Some s' /\
      all_finished s' = true /\
      clock s' = clock s /\
      dataMap (cache s') = dataMap (after_Get5 100 0) /\
      loader_untouched (after_Get5 100 0) (cache s') /\
      threads s' = replicate 2 (CallGet 5, Finished (GetReturned 10)).
Proof.
  split; [split; reflexivity|].
  eexists. split; [vm_compute; reflexivity|].
  split; [vm_compute; discriminate|].
  refine (let H := concurrent_Gets_hit 2 5 (after_Get5 100 0) 1
                      (mkCacheValue 10 100)
                      (replicate 4 (Step 0) ++ [Tick 50] ++ replicate 2 (Step 1))
                      _ eq_refl eq_refl _ _ in
          conj (proj1 H) (conj (proj1 (proj2 H)) (proj2 (proj2 (proj2 H))))).
  - vm_compute. reflexivity.
  - vm_compute. discriminate.
Defined.

Lemma entries_expire_within_ttl_witness :
  exists s,
    exec (replicate 9 (Step 0) ++ [Tick 30] ++ replicate 8 (Step 1)) mixed_pool
      = Some s /\
    cacheDuration (cache s) = 100 /\
    forall k e,
      dataMap (cache s) !! k = Some e ->
      0 + 100 <= Expiration e <= clock s + 100 /\
      (forall now, Expired e now = false ->
                   now - 100 <= Expiration e - 100 <= clock s).
Proof.
  eexists. split; [vm_compute; reflexivity|].
  apply (entries_expire_within_ttl doubling 100 0%nat 0 mixed_calls
           (replicate 9 (Step 0) ++ [Tick 30] ++ replicate 8 (Step 1))).
  vm_compute. reflexivity.
Defined.
